(** * nestjs-connectrpc: the push-to-pull bridge, the call-shape adapters
      and the service binder

    A shallow embedding of
      - [utils/async.ts]   (transformToObservable, observableToAsyncGenerator,
                            isAsyncGenerator, toAsyncGenerator),
      - [router/router.ts] (createServiceHandlers, addServicesToRouter),
      - [store.ts]         (metadataStore),
      - [connect.strategy.ts] (createRouter, close),
      - [server/server.ts] (startServer, close),
    followed by the properties of the specification that concern them.

    JavaScript runs these functions on one thread.  A generator body runs
    until it reaches a [yield], an [await] or its end; the callbacks of an
    observer run to completion when the producer calls them.  The embedding
    therefore takes whole synchronous runs as its steps. *)

From Stdlib Require Import Lia.
From stdpp Require Import base option list strings gmap.

Set Default Proof Using "Type".

(** ** JavaScript values *)

(** What an observer can be told: [subscriber.next(v)],
    [subscriber.error(e)], [subscriber.complete()]. *)
Inductive Notification (V : Type) : Type :=
  | Next (value : V)
  | Error (err : V)
  | Complete.
Arguments Next {V} value.
Arguments Error {V} err.
Arguments Complete {V}.

(** An rxjs Observable, as its subscriber sees it: the notifications sent
    synchronously inside [subscribe], then the batches it sends later, one
    batch per window in which the JavaScript thread is given to the
    producer.  The Observable contract lets nothing follow an [Error] or a
    [Complete], and rxjs drops what a producer sends after them; a script in
    which something follows describes more than a subscriber can get. *)
Record Observable (V : Type) : Type := mkObservable {
  on_subscribe : list (Notification V);
  later : list (list (Notification V))
}.
Arguments mkObservable {V} on_subscribe later.
Arguments on_subscribe {V} _.
Arguments later {V} _.

(** A pull sequence written by the user (an [async function*] object): the
    values it yields, then a normal end or a raised failure. *)
Record AsyncGenerator (V : Type) : Type := mkAsyncGenerator {
  yields : list V;
  failure : option V
}.
Arguments mkAsyncGenerator {V} yields failure.
Arguments yields {V} _.
Arguments failure {V} _.

(** The state of a Promise. *)
Inductive PromiseState (V : Type) : Type :=
  | Fulfilled (value : V)
  | Rejected (reason : V)
  | Pending.
Arguments Fulfilled {V} value.
Arguments Rejected {V} reason.
Arguments Pending {V}.

(** The values that flow through the code.  None of them is a thenable: a
    Promise only occurs as what a handler returns ([ResultOrDeferred]
    below), since [await] and promise resolution never hand one on. *)
#[warnings="-register-all"]
Inductive JsValue : Type :=
  | JUndefined
  | JNull
  | JBool (b : bool)
  | JStr (s : string)
  | JObject (props : list (string * JsValue))
  | JError (name message : string)
  | JObservable (o : Observable JsValue)
  | JAsyncGenerator (g : AsyncGenerator JsValue).

(** [item !== undefined] *)
Definition is_defined (v : JsValue) : bool :=
  match v with JUndefined => false | _ => true end.

(** [error !== null] *)
Definition is_not_null (v : JsValue) : bool :=
  match v with JNull => false | _ => true end.

(** [error instanceof Error] *)
Definition instanceof_Error (v : JsValue) : bool :=
  match v with JError _ _ => true | _ => false end.

(** [if (v)]: whether [v] is truthy. *)
Definition truthy (v : JsValue) : bool :=
  match v with
  | JUndefined | JNull | JBool false | JStr "" => false
  | _ => true
  end.

(** [String(v)] on the values above. *)
Definition js_String (v : JsValue) : string :=
  match v with
  | JUndefined => "undefined"
  | JNull => "null"
  | JBool true => "true"
  | JBool false => "false"
  | JStr s => s
  | JObject _ => "[object Object]"
  | JError name message =>
      if decide (message = "") then name else name +:+ ": " +:+ message
  | JObservable _ => "[object Object]"
  | JAsyncGenerator _ => "[object AsyncGenerator]"
  end.

(** [typeof v] *)
Definition js_typeof (v : JsValue) : string :=
  match v with
  | JUndefined => "undefined"
  | JBool _ => "boolean"
  | JStr _ => "string"
  | _ => "object"
  end.

(** [new Error(message)] *)
Definition new_Error (message : string) : JsValue := JError "Error" message.

(** [isObservable(input)] *)
Definition isObservable (input : JsValue) : bool :=
  match input with JObservable _ => true | _ => false end.

(** [isAsyncGenerator]:
    [typeof input === 'object' && input !== null && Symbol.asyncIterator in input] *)
Definition isAsyncGenerator (input : JsValue) : bool :=
  match input with JAsyncGenerator _ => true | _ => false end.

(** Every notification of an Observable, in the order it sends them. *)
Definition emissions {V} (o : Observable V) : list (Notification V) :=
  on_subscribe o ++ concat (later o).

(** ** observableToAsyncGenerator *)

Module Bridge.

(** The variable [resolve]: [null], or the resolver of the promise the loop
    awaits, before and after that promise has been resolved. *)
Inductive WakeHandle : Type :=
  | NoHandle
  | Armed
  | Fired.

(** The four closure variables of [observableToAsyncGenerator]. *)
Record Vars : Type := mkVars {
  queue : list JsValue;
  error : JsValue;
  completed : bool;
  resolve : WakeHandle
}.

(** [const queue = []; let error = null; let completed = false;
     let resolve = null;] *)
Definition initial_vars : Vars :=
  {| queue := []; error := JNull; completed := false; resolve := NoHandle |}.

(** [resolve?.()] *)
Definition call_resolve (x : Vars) : Vars :=
  match resolve x with
  | NoHandle => x
  | Armed | Fired =>
      {| queue := queue x; error := error x; completed := completed x;
         resolve := Fired |}
  end.

(** The observer handed to [obs$.subscribe]. *)
Definition on_next (value : JsValue) (x : Vars) : Vars :=
  call_resolve {| queue := queue x ++ [value]; error := error x;
                  completed := completed x; resolve := resolve x |}.

Definition on_error (err : JsValue) (x : Vars) : Vars :=
  call_resolve {| queue := queue x; error := err;
                  completed := completed x; resolve := resolve x |}.

Definition on_complete (x : Vars) : Vars :=
  call_resolve {| queue := queue x; error := error x;
                  completed := true; resolve := resolve x |}.

Definition notify (x : Vars) (n : Notification JsValue) : Vars :=
  match n with
  | Next value => on_next value x
  | Error err => on_error err x
  | Complete => on_complete x
  end.

(** A batch of notifications delivered one after the other. *)
Definition deliver (batch : list (Notification JsValue)) (x : Vars) : Vars :=
  foldl notify x batch.

(** The inner loop
    [while (queue.length > 0) { const item = queue.shift();
                                if (item !== undefined) yield item; }]
    up to its first [yield]: the item yielded and the queue left, or [None]
    when the queue ran empty. *)
Fixpoint shift_defined (q : list JsValue) : option (JsValue * list JsValue) :=
  match q with
  | [] => None
  | item :: q' => if is_defined item then Some (item, q') else shift_defined q'
  end.

(** [error instanceof Error ? error : new Error(String(error))] *)
Definition thrown_for (err : JsValue) : JsValue :=
  if instanceof_Error err then err else new_Error (js_String err).

(** How a run of the generator body ends: at [yield item], by the [throw],
    by the [break], by the [return()] of the consumer taking effect at the
    [yield] where the body stood, or at the [await]. *)
Inductive Signal : Type :=
  | SYield (item : JsValue)
  | SThrow (e : JsValue)
  | SBreak
  | SReturn
  | SAwait.

(** One run of [while (true) { ... }] from the inner loop on. *)
Definition loop (x : Vars) : Signal * Vars :=
  match shift_defined (queue x) with
  | Some (item, q') =>
      (SYield item,
       {| queue := q'; error := error x; completed := completed x;
          resolve := resolve x |})
  | None =>
      let x' := {| queue := []; error := error x; completed := completed x;
                   resolve := resolve x |} in
      if is_not_null (error x) then (SThrow (thrown_for (error x)), x')
      else if completed x then (SBreak, x')
      else (SAwait,
            {| queue := []; error := error x; completed := completed x;
               resolve := Armed |})
  end.

(** The continuation of [await new Promise(...)]: [resolve = null], then the
    loop again. *)
Definition after_await (x : Vars) : Signal * Vars :=
  loop {| queue := queue x; error := error x; completed := completed x;
          resolve := NoHandle |}.

(** Where the generator object stands (the states of an async generator in
    ECMAScript; [AwaitingWake] is the body stopped at its [await]). *)
Inductive GeneratorState : Type :=
  | SuspendedStart
  | SuspendedYield
  | AwaitingWake
  | Completed.

(** What the consumer asks: [next()] or [return()]. *)
Inductive Request : Type :=
  | ReqNext
  | ReqReturn.

(** What a consumer's request is answered with: a value, a raised failure,
    or [{ done: true }]. *)
Inductive Outcome : Type :=
  | Yielded (value : JsValue)
  | Thrown (e : JsValue)
  | Done.

(** How control left the [try] block. *)
Inductive ExitPath : Type :=
  | Exhausted
  | Errored
  | Abandoned.

(** A generator made by [observableToAsyncGenerator(obs$)], with its
    surroundings: what the source has still to send, the requests not yet
    answered, the answers given so far, how often
    [subscription.unsubscribe()] has been called, and by which path control
    left the [try] block, if it did. *)
Record State : Type := mkState {
  vars : Vars;
  script : list (list (Notification JsValue));
  gen : GeneratorState;
  requests : list Request;
  log : list Outcome;
  unsubscribed : nat;
  exit : option ExitPath
}.

(** The generator object as the call returns it: nothing has run yet. *)
Definition observableToAsyncGenerator (obs : Observable JsValue) : State :=
  {| vars := initial_vars;
     script := on_subscribe obs :: later obs;
     gen := SuspendedStart;
     requests := [];
     log := [];
     unsubscribed := 0;
     exit := None |}.

Definition set_vars (x : Vars) (st : State) : State :=
  {| vars := x; script := script st; gen := gen st; requests := requests st;
     log := log st; unsubscribed := unsubscribed st; exit := exit st |}.

Definition set_gen (g : GeneratorState) (st : State) : State :=
  {| vars := vars st; script := script st; gen := g;
     requests := requests st; log := log st;
     unsubscribed := unsubscribed st; exit := exit st |}.

Definition set_requests (rs : list Request) (st : State) : State :=
  {| vars := vars st; script := script st; gen := gen st; requests := rs;
     log := log st; unsubscribed := unsubscribed st; exit := exit st |}.

(** The source sends its next batch to the observer. *)
Definition emit (st : State) : State :=
  match script st with
  | [] => st
  | batch :: rest =>
      {| vars := deliver batch (vars st); script := rest; gen := gen st;
         requests := requests st; log := log st;
         unsubscribed := unsubscribed st; exit := exit st |}
  end.

(** [const subscription = obs$.subscribe({...})]: the source sends its
    synchronous notifications. *)
Definition subscribe (st : State) : State := emit st.

(** [finally { subscription.unsubscribe(); }], control leaving by [path]. *)
Definition finally (path : ExitPath) (st : State) : State :=
  {| vars := vars st; script := script st; gen := Completed;
     requests := requests st; log := log st;
     unsubscribed := S (unsubscribed st); exit := Some path |}.

(** The consumer's request at the head of the queue is answered. *)
Definition answer (o : Outcome) (st : State) : State :=
  {| vars := vars st; script := script st; gen := gen st;
     requests := requests st; log := log st ++ [o];
     unsubscribed := unsubscribed st; exit := exit st |}.

Definition continue_with (body : Vars -> Signal * Vars) (st : State)
  : Signal * State :=
  let '(s, x) := body (vars st) in (s, set_vars x st).

(** The body is resumed for the request [r] and runs until it suspends or
    leaves the [try] block.  [None]: the body does not run (it has not been
    entered and is asked to return, it has ended, or it waits at its [await]
    for a promise not yet resolved). *)
Definition resume (r : Request) (st : State) : option (Signal * State) :=
  match gen st, r with
  | SuspendedStart, ReqNext => Some (continue_with loop (subscribe st))
  | SuspendedYield, ReqNext => Some (continue_with loop st)
  | SuspendedYield, ReqReturn => Some (SReturn, st)
  | AwaitingWake, _ =>
      match resolve (vars st) with
      | Fired => Some (continue_with after_await st)
      | _ => None
      end
  | _, _ => None
  end.

(** The request queue of the async generator: the requests are answered in
    turn; they stay queued while the body waits at its [await].  A request
    for which the body does not run is answered [{ done: true }]: a
    [return()] before the body was entered ends the generator there, and a
    generator that has ended stays so. *)
Fixpoint serve (rs : list Request) (st : State) : State :=
  match rs with
  | [] => set_requests [] st
  | r :: rest =>
      match resume r st with
      | Some (SYield item, st') =>
          serve rest (answer (Yielded item) (set_gen SuspendedYield st'))
      | Some (SThrow e, st') =>
          serve rest (answer (Thrown e) (finally Errored st'))
      | Some (SBreak, st') =>
          serve rest (answer Done (finally Exhausted st'))
      | Some (SReturn, st') =>
          serve rest (answer Done (finally Abandoned st'))
      | Some (SAwait, st') =>
          set_requests (r :: rest) (set_gen AwaitingWake st')
      | None =>
          match gen st with
          | AwaitingWake => set_requests (r :: rest) st
          | _ => serve rest (answer Done (set_gen Completed st))
          end
      end
  end.

(** What happens around the generator: the consumer pulls or abandons, or a
    window passes in which the producer sends its next batch. *)
Inductive Action : Type :=
  | Pull
  | Return
  | Window.

(** The consumer calls [next()] or [return()]. *)
Definition request (r : Request) (st : State) : State :=
  serve (requests st ++ [r]) st.

(** The producer's window.  The subscription is live while the body is
    suspended inside the [try] block: the batch goes to the observer, and
    when that resolved the awaited promise the body goes on with the
    requests that wait.  Before [subscribe] and after [unsubscribe] no
    observer is attached and the window passes unnoticed. *)
Definition window (st : State) : State :=
  match gen st with
  | SuspendedYield => emit st
  | AwaitingWake => let st' := emit st in serve (requests st') st'
  | SuspendedStart | Completed => st
  end.

Definition step (st : State) (a : Action) : State :=
  match a with
  | Pull => request ReqNext st
  | Return => request ReqReturn st
  | Window => window st
  end.

Definition run (sched : list Action) (st : State) : State :=
  foldl step st sched.

(** The answers a consumer gets from [observableToAsyncGenerator(obs$)]
    under the schedule [sched]. *)
Definition pulled (obs : Observable JsValue) (sched : list Action)
  : list Outcome :=
  log (run sched (observableToAsyncGenerator obs)).

End Bridge.

(** ** transformToObservable, toAsyncGenerator *)

Module Async.

(** [type ResultOrDeferred<T> = T | Promise<T> | Observable<T>]: a value
    at hand (an Observable is one of them), or a Promise of one. *)
Inductive ResultOrDeferred : Type :=
  | Direct (value : JsValue)
  | Deferred (promise : PromiseState JsValue).

(** [await result] *)
Definition await (result : ResultOrDeferred) : PromiseState JsValue :=
  match result with
  | Direct value => Fulfilled value
  | Deferred promise => promise
  end.

(** What the Observable built around a Promise sends, in the window in
    which the reactions of the Promise run:
    [.then(value => { subscriber.next(value); subscriber.complete(); })
     .catch(error => { subscriber.error(error); })] *)
Definition reactions (promise : PromiseState JsValue)
  : list (Notification JsValue) :=
  match promise with
  | Fulfilled value => [Next value; Complete]
  | Rejected reason => [Error reason]
  | Pending => []
  end.

Definition transformToObservable (resultOrDeferred : ResultOrDeferred)
  : Observable JsValue :=
  match resultOrDeferred with
  | Direct (JObservable o) => o
  | Deferred promise => mkObservable [] [reactions promise]
  | Direct value => mkObservable [Next value; Complete] []
  end.

(** What [toAsyncGenerator(input)] is, as a pull sequence. *)
Inductive PullSequence : Type :=
  | Bridged (obs : Observable JsValue)
  | Delegated (g : AsyncGenerator JsValue)
  | Failing (e : JsValue)
  | Stalled.

Definition unsupported (input : JsValue) : JsValue :=
  new_Error ("Unsupported input type. Expected Observable or AsyncGenerator, got "
             +:+ js_typeof input).

(** [if (isObservable(input)) yield* observableToAsyncGenerator(input);
     else if (isAsyncGenerator(input)) yield* input;
     else throw new Error(...)] *)
Definition toAsyncGenerator (input : JsValue) : PullSequence :=
  match input with
  | JObservable o => Bridged o
  | JAsyncGenerator g => Delegated g
  | _ => Failing (unsupported input)
  end.

(** A generator whose body does not wait for anything: it answers the pulls
    with [prog] in turn and has ended after a failure, after a [return()],
    and when [prog] is used up. *)
Fixpoint play (prog : list Bridge.Outcome) (sched : list Bridge.Action)
  : list Bridge.Outcome :=
  match sched with
  | [] => []
  | Bridge.Window :: sched' => play prog sched'
  | Bridge.Return :: sched' => Bridge.Done :: play [] sched'
  | Bridge.Pull :: sched' =>
      match prog with
      | [] => Bridge.Done :: play [] sched'
      | Bridge.Thrown e :: _ => Bridge.Thrown e :: play [] sched'
      | o :: prog' => o :: play prog' sched'
      end
  end.

Definition program (g : AsyncGenerator JsValue) : list Bridge.Outcome :=
  map Bridge.Yielded (yields g) ++
  match failure g with
  | Some e => [Bridge.Thrown e]
  | None => []
  end.

(** A generator whose body waits at its first [await] for good: from the
    first [next()] on nothing is answered; a [return()] that comes before it
    ends the generator, whose body has not been entered. *)
Fixpoint stalled (sched : list Bridge.Action) : list Bridge.Outcome :=
  match sched with
  | [] => []
  | Bridge.Window :: sched' => stalled sched'
  | Bridge.Return :: sched' => Bridge.Done :: play [] sched'
  | Bridge.Pull :: _ => []
  end.

(** The answers a consumer gets from a pull sequence under a schedule.  A
    generator that only delegates ([yield*]) hands every request on and
    every answer back. *)
Definition pulled (p : PullSequence) (sched : list Bridge.Action)
  : list Bridge.Outcome :=
  match p with
  | Bridged obs => Bridge.pulled obs sched
  | Delegated g => play (program g) sched
  | Failing e => play [Bridge.Thrown e] sched
  | Stalled => stalled sched
  end.

End Async.

(** ** lastValueFrom (rxjs) *)

Module Rx.

(** [new EmptyError()] *)
Definition EmptyError : JsValue := JError "EmptyError" "no elements in sequence".

(** The observer of [lastValueFrom]:
    [next: value => { _value = value; _hasValue = true }, error: reject,
     complete: () => _hasValue ? resolve(_value) : reject(new EmptyError())] *)
Fixpoint last_value (evs : list (Notification JsValue))
  (_value : option JsValue) : PromiseState JsValue :=
  match evs with
  | [] => Pending
  | Next value :: evs' => last_value evs' (Some value)
  | Error err :: _ => Rejected err
  | Complete :: _ =>
      match _value with
      | Some value => Fulfilled value
      | None => Rejected EmptyError
      end
  end.

Definition lastValueFrom (source : Observable JsValue) : PromiseState JsValue :=
  last_value (emissions source) None.

End Rx.

(** ** createServiceHandlers, addServicesToRouter *)

Module Router.
Import Async.

(** The own properties of a JavaScript object used as a record of named
    entries, in the order in which the names were first set.  What an object
    inherits from [Object.prototype] is not part of it: [obj_get] and
    [obj_set] are [o[name]] and [o[name] = a] for the names outside
    [Table.inherited] below. *)
Definition Object (A : Type) : Type := list (string * A).

(** [o[name]] *)
Fixpoint obj_get {A} (name : string) (o : Object A) : option A :=
  match o with
  | [] => None
  | (k, a) :: o' => if decide (k = name) then Some a else obj_get name o'
  end.

(** [o[name] = a] *)
Fixpoint obj_set {A} (name : string) (a : A) (o : Object A) : Object A :=
  match o with
  | [] => [(name, a)]
  | (k, b) :: o' =>
      if decide (k = name) then (k, a) :: o' else (k, b) :: obj_set name a o'
  end.

(** [o[name][inner] = a], for a [name] that [o] has. *)
Fixpoint obj_set_in {A} (name inner : string) (a : A) (o : Object (Object A))
  : Object (Object A) :=
  match o with
  | [] => []
  | (k, sub) :: o' =>
      if decide (k = name) then (k, obj_set inner a sub) :: o'
      else (k, sub) :: obj_set_in name inner a o'
  end.

(** [MessageHandler]: called with the request (or the requests) and the
    context. *)
Definition MessageHandler : Type := JsValue -> JsValue -> ResultOrDeferred.

(** [type RpcHandler = UnaryHandler | ServerStreamHandler
                      | ClientStreamHandler | BidiStreamHandler] *)
Inductive RpcHandler : Type :=
  | UnaryHandler (f : JsValue -> JsValue -> PromiseState JsValue)
  | ServerStreamHandler (f : JsValue -> JsValue -> PullSequence)
  | ClientStreamHandler (f : JsValue -> JsValue -> PromiseState JsValue)
  | BidiStreamHandler (f : JsValue -> JsValue -> PullSequence).

Definition ServiceHandlerMap : Type := Object (Object RpcHandler).

(** [ConnectStreamingType] *)
Definition NO_STREAMING : string := "no_stream".
Definition RX_STREAMING : string := "rx_stream".
Definition PT_STREAMING : string := "pt_stream".
Definition DUPLEX_STREAMING : string := "duplex_stream".

(** [interface ConnectRpcPattern] *)
Record ConnectRpcPattern : Type := mkPattern {
  rpc : string;
  service : string;
  streaming : string
}.

(** The key of an entry of the handler map, as [JSON.parse(key)] takes it:
    text that is not JSON, on which it throws [error] (a [SyntaxError]), or
    the JSON text of a pattern, which it gives back. *)
Inductive Key : Type :=
  | NotJson (error : JsValue)
  | PatternKey (pattern : ConnectRpcPattern).

(** [const result = handler(request, context);
     const resultOrDeferred = await result;
     return lastValueFrom(transformToObservable(resultOrDeferred));] *)
Definition lastValueHandler (handler : MessageHandler)
  (request context : JsValue) : PromiseState JsValue :=
  match await (handler request context) with
  | Fulfilled resultOrDeferred =>
      Rx.lastValueFrom (transformToObservable (Direct resultOrDeferred))
  | Rejected reason => Rejected reason
  | Pending => Pending
  end.

(** [const result = handler(request, context);
     const resultOrDeferred = await result;
     yield* toAsyncGenerator(resultOrDeferred);] *)
Definition streamingHandler (handler : MessageHandler)
  (request context : JsValue) : PullSequence :=
  match await (handler request context) with
  | Fulfilled resultOrDeferred => toAsyncGenerator resultOrDeferred
  | Rejected reason => Failing reason
  | Pending => Stalled
  end.

(** The [switch (streamingType)]; [inl]: the [throw] of its default case. *)
Definition adapter (streamingType : string) (handler : MessageHandler)
  : JsValue + RpcHandler :=
  if decide (streamingType = NO_STREAMING) then
    inr (UnaryHandler (lastValueHandler handler))
  else if decide (streamingType = RX_STREAMING) then
    inr (ServerStreamHandler (streamingHandler handler))
  else if decide (streamingType = PT_STREAMING) then
    inr (ClientStreamHandler (lastValueHandler handler))
  else if decide (streamingType = DUPLEX_STREAMING) then
    inr (BidiStreamHandler (streamingHandler handler))
  else inl (new_Error ("Invalid streaming type: " +:+ streamingType)).

(** One turn of [for (const [key, handler] of handlers)]; the handler of an
    entry may be [null]:
    [const { streaming: streamingType, service, ...pattern } = JSON.parse(key);
     if (!handler) continue;
     if (!serviceHandlers[service]) serviceHandlers[service] = {};
     switch (streamingType) { ... serviceHandlers[service][pattern.rpc] = ... }]
    [inl]: what the turn threw. *)
Definition register (serviceHandlers : ServiceHandlerMap)
  (entry : Key * option MessageHandler)
  : JsValue + ServiceHandlerMap :=
  let '(key, handler) := entry in
  match key with
  | NotJson error => inl error
  | PatternKey pattern =>
      match handler with
      | None => inr serviceHandlers
      | Some handler =>
          let serviceHandlers :=
            match obj_get (service pattern) serviceHandlers with
            | Some _ => serviceHandlers
            | None => obj_set (service pattern) [] serviceHandlers
            end in
          match adapter (streaming pattern) handler with
          | inl e => inl e
          | inr f =>
              inr (obj_set_in (service pattern) (rpc pattern) f serviceHandlers)
          end
      end
  end.

Fixpoint register_all (serviceHandlers : ServiceHandlerMap)
  (handlers : list (Key * option MessageHandler))
  : JsValue + ServiceHandlerMap :=
  match handlers with
  | [] => inr serviceHandlers
  | entry :: handlers' =>
      match register serviceHandlers entry with
      | inl e => inl e
      | inr serviceHandlers' => register_all serviceHandlers' handlers'
      end
  end.

Definition createServiceHandlers
  (handlers : list (Key * option MessageHandler))
  : JsValue + ServiceHandlerMap :=
  register_all [] handlers.

(** [DescService], the descriptor of a service. *)
Record DescService : Type := mkDescService { typeName : string }.

(** The routing surface: the calls [router.service(service, impl)] made. *)
Definition ConnectRouter : Type := list (DescService * Object RpcHandler).

(** One turn of [for (const serviceName of Object.keys(serviceHandlers))],
    [impl] being [serviceHandlers[serviceName]]:
    [const service = metadataStore.get(serviceName);
     if (service) router.service(service, serviceHandlers[serviceName]);] *)
Definition attach (metadataStore : gmap string DescService)
  (router : ConnectRouter) (entry : string * Object RpcHandler)
  : ConnectRouter :=
  let '(serviceName, impl) := entry in
  match metadataStore !! serviceName with
  | Some service => router ++ [(service, impl)]
  | None => router
  end.

Definition addServicesToRouter (metadataStore : gmap string DescService)
  (router : ConnectRouter) (serviceHandlers : ServiceHandlerMap)
  : ConnectRouter :=
  foldl (attach metadataStore) router serviceHandlers.

(** Calling an adapter the way the transport does, as a unary or
    client-streaming implementation ... *)
Definition call_single (f : RpcHandler) (request context : JsValue)
  : option (PromiseState JsValue) :=
  match f with
  | UnaryHandler f | ClientStreamHandler f => Some (f request context)
  | _ => None
  end.

(** ... or as a server-streaming or bidirectional one. *)
Definition call_streaming (f : RpcHandler) (request context : JsValue)
  : option PullSequence :=
  match f with
  | ServerStreamHandler f | BidiStreamHandler f => Some (f request context)
  | _ => None
  end.

End Router.

(** ** What a consumer is due *)

Module Due.
Import Bridge.

(** The answers a consumer is due: [items], then [Done] for ever when
    [closed], and no answer at all (the requests wait) otherwise. *)
Definition Stream : Type := list Outcome * bool.

(** The first [n] answers of a stream. *)
Fixpoint answers (n : nat) (items : list Outcome) (closed : bool)
  : list Outcome :=
  match n with
  | 0 => []
  | S n' =>
      match items with
      | o :: items' => o :: answers n' items' closed
      | [] => if closed then Done :: answers n' [] closed else []
      end
  end.

Definition defined (vs : list JsValue) : list JsValue :=
  List.filter is_defined vs.

(** What the loop does once the queue is empty. *)
Definition verdict (x : Vars) : Stream :=
  if is_not_null (error x) then ([Thrown (thrown_for (error x))], true)
  else if completed x then ([], true)
  else ([], false).

(** What the variables hold for the consumer. *)
Definition present (x : Vars) : Stream :=
  (map Yielded (defined (queue x)) ++ (verdict x).1, (verdict x).2).

(** ... and what they will hold once [evs] have come in. *)
Definition outlook (evs : list (Notification JsValue)) (x : Vars) : Stream :=
  present (deliver evs x).

Definition due (st : State) : Stream :=
  match gen st with
  | Completed => ([], true)
  | _ => outlook (concat (script st)) (vars st)
  end.

(** A source that keeps the Observable contract: nothing follows an [Error]
    or a [Complete]. *)
Fixpoint well_formed (evs : list (Notification JsValue)) : Prop :=
  match evs with
  | [] => True
  | Next _ :: evs' => well_formed evs'
  | _ :: evs' => evs' = []
  end.

Definition terminal_set (x : Vars) : bool :=
  is_not_null (error x) || completed x.

Definition nexts (evs : list (Notification JsValue)) : list JsValue :=
  flat_map (fun n => match n with Next v => [v] | _ => [] end) evs.

Definition error_after (evs : list (Notification JsValue)) (e : JsValue)
  : JsValue :=
  foldl (fun e n => match n with Error e' => e' | _ => e end) e evs.

Definition completed_after (evs : list (Notification JsValue)) (c : bool)
  : bool :=
  foldl (fun c n => match n with Complete => true | _ => c end) c evs.

(** What holds of a generator whenever its request queue is looked at. *)
Definition runnable (st : State) : Prop :=
  well_formed (concat (script st)) /\
  (terminal_set (vars st) = true -> concat (script st) = []) /\
  match gen st with
  | SuspendedStart => vars st = initial_vars
  | SuspendedYield => resolve (vars st) = NoHandle
  | AwaitingWake =>
      resolve (vars st) = Fired \/
      (resolve (vars st) = Armed /\ queue (vars st) = [] /\
       error (vars st) = JNull /\ completed (vars st) = false)
  | Completed => True
  end.

(** ... and between two actions: requests only wait while the body stands
    at its [await], with the handle armed. *)
Definition settled (st : State) : Prop :=
  runnable st /\
  Forall (eq ReqNext) (requests st) /\
  match gen st with
  | AwaitingWake => resolve (vars st) = Armed /\ requests st <> []
  | _ => requests st = []
  end.

(** [st1] has answered [rs] on top of [log0] out of the stream [d]. *)
Definition served (rs : list Request) (log0 : list Outcome) (d : Stream)
  (st1 : State) : Prop :=
  settled st1 /\
  length (log st1) + length (requests st1) = length log0 + length rs /\
  forall k,
    log st1 ++ answers (length (requests st1) + k) (due st1).1 (due st1).2 =
    log0 ++ answers (length rs + k) d.1 d.2.

(** What holds of a generator under every schedule. *)
Definition tidy (st : State) : Prop :=
  unsubscribed st = (if exit st is Some _ then 1 else 0) /\
  (gen st <> Completed -> exit st = None) /\
  Forall (fun o => o <> Yielded JUndefined) (log st) /\
  (gen st = SuspendedStart -> log st = []) /\
  (gen st = Completed -> exit st = None -> Forall (eq Done) (log st)) /\
  (gen st = Completed ->
   Exists (fun o => forall value, o <> Yielded value) (log st)).

(** The source has sent everything it had to send. *)
Definition all_sent (st : State) : Prop := concat (script st) = [].

Definition pulls_of (a : Action) : nat :=
  match a with Pull => 1 | _ => 0 end.

Definition count_pulls (sched : list Action) : nat :=
  length (List.filter (fun a => match a with Pull => true | _ => false end)
                      sched).

(** The consumer never abandons the sequence. *)
Definition no_return (sched : list Action) : bool :=
  forallb (fun a => match a with Return => false | _ => true end) sched.

End Due.

(** ** Every source, every schedule *)

Module Safety.
Import Bridge Due.

(** What holds of a generator whenever its request queue is looked at,
    whatever the source sends. *)
Definition ready (st : State) : Prop :=
  match gen st with
  | SuspendedStart => vars st = initial_vars
  | SuspendedYield => resolve (vars st) = NoHandle
  | AwaitingWake =>
      resolve (vars st) = Fired \/
      (resolve (vars st) = Armed /\ queue (vars st) = [] /\
       error (vars st) = JNull /\ completed (vars st) = false)
  | Completed => True
  end.

(** ... and between two actions. *)
Definition steady (st : State) : Prop :=
  match gen st with
  | SuspendedStart => vars st = initial_vars /\ requests st = []
  | SuspendedYield => resolve (vars st) = NoHandle /\ requests st = []
  | AwaitingWake =>
      resolve (vars st) = Armed /\ queue (vars st) = [] /\
      error (vars st) = JNull /\ completed (vars st) = false /\
      requests st <> []
  | Completed => requests st = []
  end.

(** How a list of answers may end: with [{ done: true }] some times over,
    after one raised failure at most. *)
Definition closing (l : list Outcome) : Prop :=
  exists k, l = replicate k Done \/ exists e, l = Thrown e :: replicate k Done.

(** The answers are values out of [E], from its front and in its order,
    followed by a closing; while the generator has not ended, what it has
    yielded, what it holds and what the source has still to send make up
    [E]. *)
Definition fifo (E : list JsValue) (st : State) : Prop :=
  exists ys cl,
    log st = map Yielded ys ++ cl /\ closing cl /\ ys `prefix_of` E /\
    (gen st <> Completed ->
     cl = [] /\
     ys ++ defined (queue (vars st)) ++
       defined (nexts (concat (script st))) = E).



(** The calls of [next()] and [return()] in a schedule. *)
Definition requests_made (sched : list Action) : nat :=
  length (List.filter (fun a => match a with Window => false | _ => true end)
                      sched).

End Safety.

(** ** The handler table *)

Module Table.
Import Async Router.

(** The names of the own properties of [o], in the order in which they
    were first set.  [Object.keys(o)] lists the same names, those that are
    array indices first. *)
Definition obj_keys {A} (o : Object A) : list string := o.*1.

(** The names every object inherits from [Object.prototype]. *)
Definition inherited : list string :=
  ["constructor"; "__defineGetter__"; "__defineSetter__"; "hasOwnProperty";
   "__lookupGetter__"; "__lookupSetter__"; "isPrototypeOf";
   "propertyIsEnumerable"; "toString"; "valueOf"; "__proto__";
   "toLocaleString"].

(** A name that no object inherits. *)
Definition ordinary (name : string) : bool :=
  negb (bool_decide (name ∈ inherited)).

(** The entries that reach the table name their service and their method
    with names that no object inherits. *)
Definition ordinary_names (handlers : list (Key * option MessageHandler))
  : bool :=
  forallb (fun entry : Key * option MessageHandler =>
             match entry with
             | (PatternKey pattern, Some _) =>
                 ordinary (service pattern) && ordinary (rpc pattern)
             | _ => true
             end)
          handlers.

(** The adapter the table holds for a service and a method as own
    properties, [serviceHandlers[service][rpc]], when there is one. *)
Definition method_of (serviceName rpcName : string)
  (serviceHandlers : ServiceHandlerMap) : option RpcHandler :=
  match obj_get serviceName serviceHandlers with
  | Some impl => obj_get rpcName impl
  | None => None
  end.

(** The four values of [ConnectStreamingType]. *)
Definition known_streaming (streamingType : string) : bool :=
  bool_decide (streamingType = NO_STREAMING) ||
  bool_decide (streamingType = RX_STREAMING) ||
  bool_decide (streamingType = PT_STREAMING) ||
  bool_decide (streamingType = DUPLEX_STREAMING).

(** What the first entry that fails is due to throw: the error of
    [JSON.parse] for a key that is not JSON, whatever its handler, and an
    [Error] that names the streaming type for an entry that has a handler
    and a streaming type that is none of the four. *)
Fixpoint first_failure (handlers : list (Key * option MessageHandler))
  : option JsValue :=
  match handlers with
  | [] => None
  | (NotJson error, _) :: _ => Some error
  | (PatternKey pattern, Some _) :: handlers' =>
      if known_streaming (streaming pattern) then first_failure handlers'
      else Some (new_Error ("Invalid streaming type: " +:+ streaming pattern))
  | (PatternKey _, None) :: handlers' => first_failure handlers'
  end.

(** The entry has a key that parses and a handler that is [null]. *)
Definition idle (entry : Key * option MessageHandler) : bool :=
  match entry with
  | (PatternKey _, None) => true
  | _ => false
  end.

(** The entry has a handler and names this service and this method. *)
Definition registers (serviceName rpcName : string)
  (entry : Key * option MessageHandler) : Prop :=
  match entry with
  | (PatternKey pattern, Some _) =>
      service pattern = serviceName /\ rpc pattern = rpcName
  | _ => False
  end.

(** No two services share a name, no two methods of a service share one,
    and no service is without a method. *)
Definition well_shaped (serviceHandlers : ServiceHandlerMap) : Prop :=
  NoDup (obj_keys serviceHandlers) /\
  Forall (fun entry : string * Object RpcHandler =>
            NoDup (obj_keys entry.2) /\ entry.2 <> [])
         serviceHandlers.

End Table.

(** ** ConnectRpcServerStrategy.createRouter *)

Module Strategy.
Import Router.

(** The router function made by [createRouter()], called with [router]:
    [const serviceHandlers = createServiceHandlers(this.getHandlers());
     addServicesToRouter(router, serviceHandlers);]
    [inl]: what [createServiceHandlers] threw. *)
Definition createRouter (metadataStore : gmap string DescService)
  (handlers : list (Key * option MessageHandler))
  (router : ConnectRouter) : JsValue + ConnectRouter :=
  match createServiceHandlers handlers with
  | inl e => inl e
  | inr serviceHandlers =>
      inr (addServicesToRouter metadataStore router serviceHandlers)
  end.

End Strategy.

(** ** ConnectRpcServer, ConnectRpcServerStrategy.close *)

Module Server.

(** What [ConnectRpcServer] gets to see of the node server it holds:
    whether it has a [closeAllConnections] method, whether [listen] comes to
    call its callback, and whether [close] comes to call its callback, and
    with which [err]. *)
Record Instance : Type := mkInstance {
  closeAllConnections : bool;
  listen_calls_back : bool;
  close_calls_back : option (option JsValue)
}.

(** What a [ConnectRpcServer] does to its surroundings. *)
Inductive Effect : Type :=
  | Listen (port : nat)
  | OptionsCallback
  | CloseAllConnections
  | Close
  | Callback.

(** [options.port], and whether [options.callback] is there. *)
Record Options : Type := mkOptions {
  port : nat;
  callback : bool
}.

(** A [ConnectRpcServer]: its options, its [#instance], and what it has
    done so far. *)
Record ConnectRpcServer : Type := mkServer {
  options : Options;
  instance : option Instance;
  effects : list Effect
}.

(** [hasCloseAllConnections(server)] *)
Definition hasCloseAllConnections (server : option Instance) : bool :=
  match server with
  | Some server => closeAllConnections server
  | None => false
  end.

(** [callback?.()] *)
Definition call_optional (present : bool) (e : Effect) : list Effect :=
  if present then [e] else [].

(** [startServer()]:
    [new Promise(resolve => { this.#instance?.listen(this.options.port,
       () => { this.options.callback?.(); resolve(); }); })] *)
Definition startServer (s : ConnectRpcServer)
  : PromiseState JsValue * ConnectRpcServer :=
  match instance s with
  | None => (Pending, s)
  | Some server =>
      if listen_calls_back server then
        (Fulfilled JUndefined,
         {| options := options s; instance := instance s;
            effects := effects s ++ [Listen (port (options s))] ++
                       call_optional (callback (options s)) OptionsCallback |})
      else
        (Pending,
         {| options := options s; instance := instance s;
            effects := effects s ++ [Listen (port (options s))] |})
  end.

(** [close(callback?)]:
    [if (this.#instance === null) { callback?.(); return resolve(); }
     const server = this.#instance;
     if (hasCloseAllConnections(server)) server.closeAllConnections();
     server.close(err => { this.#instance = null; callback?.();
                           if (err) reject(err); else resolve(); });] *)
Definition close (with_callback : bool) (s : ConnectRpcServer)
  : PromiseState JsValue * ConnectRpcServer :=
  match instance s with
  | None =>
      (Fulfilled JUndefined,
       {| options := options s; instance := None;
          effects := effects s ++ call_optional with_callback Callback |})
  | Some server =>
      let done_so_far :=
        effects s ++
        call_optional (hasCloseAllConnections (Some server)) CloseAllConnections ++
        [Close] in
      match close_calls_back server with
      | None =>
          (Pending,
           {| options := options s; instance := Some server;
              effects := done_so_far |})
      | Some err =>
          (match err with
           | Some err =>
               if truthy err then Rejected err else Fulfilled JUndefined
           | None => Fulfilled JUndefined
           end,
           {| options := options s; instance := None;
              effects := done_so_far ++ call_optional with_callback Callback |})
      end
  end.

(** [ConnectRpcServerStrategy.close()], on the field [#server]:
    [await this.#server?.close(); this.#server = null;] *)
Definition strategy_close (server : option ConnectRpcServer)
  : PromiseState JsValue * option ConnectRpcServer :=
  match server with
  | None => (Fulfilled JUndefined, None)
  | Some s =>
      match close false s with
      | (Fulfilled _, _) => (Fulfilled JUndefined, None)
      | (Rejected err, s') => (Rejected err, Some s')
      | (Pending, s') => (Pending, Some s')
      end
  end.

(** The calls made on the node server. *)
Definition on_node_server (e : Effect) : bool :=
  match e with
  | Listen _ | CloseAllConnections | Close => true
  | _ => false
  end.

End Server.

(** Closes a goal [Forall P (log ++ [o])]. *)
Ltac snoc_log :=
  apply Forall_app; split; [auto | repeat constructor; auto].

(** * Properties *)

(** ** The observer and the loop *)

Section Observer.
Import Bridge Due.

Lemma call_resolve_queue x : queue (call_resolve x) = queue x.
Proof. unfold call_resolve. by destruct (resolve x). Qed.

Lemma call_resolve_error x : error (call_resolve x) = error x.
Proof. unfold call_resolve. by destruct (resolve x). Qed.

Lemma call_resolve_completed x : completed (call_resolve x) = completed x.
Proof. unfold call_resolve. by destruct (resolve x). Qed.

Lemma call_resolve_handle x :
  resolve (call_resolve x) =
  match resolve x with NoHandle => NoHandle | _ => Fired end.
Proof. unfold call_resolve. by destruct (resolve x) eqn:E. Qed.

Lemma deliver_cons n evs x : deliver (n :: evs) x = deliver evs (notify x n).
Proof. reflexivity. Qed.

Lemma deliver_app evs1 evs2 x :
  deliver (evs1 ++ evs2) x = deliver evs2 (deliver evs1 x).
Proof. unfold deliver. apply foldl_app. Qed.

Lemma deliver_queue evs x : queue (deliver evs x) = queue x ++ nexts evs.
Proof.
  revert x. induction evs as [|n evs IH]; intros x.
  - simpl. by rewrite app_nil_r.
  - rewrite deliver_cons, IH.
    destruct n; unfold notify, on_next, on_error, on_complete;
      rewrite call_resolve_queue; simpl;
      by rewrite <- ?app_assoc.
Qed.

Lemma deliver_error evs x : error (deliver evs x) = error_after evs (error x).
Proof.
  revert x. induction evs as [|n evs IH]; intros x; [done|].
  rewrite deliver_cons, IH.
  destruct n; unfold notify, on_next, on_error, on_complete;
    by rewrite call_resolve_error.
Qed.

Lemma deliver_completed evs x :
  completed (deliver evs x) = completed_after evs (completed x).
Proof.
  revert x. induction evs as [|n evs IH]; intros x; [done|].
  rewrite deliver_cons, IH.
  destruct n; unfold notify, on_next, on_error, on_complete;
    by rewrite call_resolve_completed.
Qed.

Lemma deliver_no_handle evs x :
  resolve x = NoHandle -> resolve (deliver evs x) = NoHandle.
Proof.
  revert x. induction evs as [|n evs IH]; intros x Hx; [done|].
  rewrite deliver_cons. apply IH.
  destruct n; unfold notify, on_next, on_error, on_complete;
      rewrite call_resolve_handle; simpl; by rewrite Hx.
Qed.

Lemma deliver_armed evs x :
  resolve x = Armed ->
  resolve (deliver evs x) = match evs with [] => Armed | _ => Fired end.
Proof.
  assert (Hfired : forall evs' y, resolve y = Fired ->
                                  resolve (deliver evs' y) = Fired).
  { induction evs' as [|n evs' IH]; intros y Hy; [done|].
    rewrite deliver_cons. apply IH.
    destruct n; unfold notify, on_next, on_error, on_complete;
      rewrite call_resolve_handle; simpl; by rewrite Hy. }
  destruct evs as [|n evs]; intros Hx; [done|].
  rewrite deliver_cons. apply Hfired.
  destruct n; unfold notify, on_next, on_error, on_complete;
      rewrite call_resolve_handle; simpl; by rewrite Hx.
Qed.

Lemma present_ext x y :
  queue x = queue y -> error x = error y -> completed x = completed y ->
  present x = present y.
Proof. unfold present, verdict. by intros -> -> ->. Qed.

Lemma outlook_ext evs x y :
  defined (queue x) = defined (queue y) ->
  error x = error y -> completed x = completed y ->
  outlook evs x = outlook evs y.
Proof.
  intros Hq He Hc. unfold outlook, present, verdict.
  rewrite !deliver_queue, !deliver_error, !deliver_completed, He, Hc.
  unfold defined in *. by rewrite !List.filter_app, Hq.
Qed.

Lemma shift_defined_some q item q' :
  shift_defined q = Some (item, q') -> defined q = item :: defined q'.
Proof.
  induction q as [|v q IH]; [done|]. simpl.
  destruct (is_defined v) eqn:Hv.
  - intros [= ? ?]; subst. unfold defined. simpl. by rewrite ?Hv.
  - intros H. unfold defined. simpl. rewrite ?Hv. by apply IH.
Qed.

Lemma shift_defined_none q : shift_defined q = None -> defined q = [].
Proof.
  induction q as [|v q IH]; [done|]. simpl.
  destruct (is_defined v) eqn:Hv; [done|].
  intros H. unfold defined. simpl. rewrite ?Hv. by apply IH.
Qed.

Lemma shift_defined_is_defined q item q' :
  shift_defined q = Some (item, q') -> is_defined item = true.
Proof.
  induction q as [|v q IH]; [done|]. simpl.
  destruct (is_defined v) eqn:Hv; [by intros [= <- _]|apply IH].
Qed.

Lemma outlook_shift evs x item q' :
  defined (queue x) = item :: defined q' ->
  outlook evs x =
  (Yielded item ::
     (outlook evs {| queue := q'; error := error x; completed := completed x;
                     resolve := resolve x |}).1,
   (outlook evs {| queue := q'; error := error x; completed := completed x;
                   resolve := resolve x |}).2).
Proof.
  intros Hq. unfold outlook, present, verdict.
  rewrite !deliver_queue, !deliver_error, !deliver_completed. simpl.
  unfold defined in *. by rewrite !List.filter_app, Hq.
Qed.

End Observer.

(** ** The request queue *)

Section Serving.
Import Bridge Due.

Lemma is_not_null_false e : is_not_null e = false -> e = JNull.
Proof. by destruct e. Qed.

Lemma loop_spec x evs :
  well_formed evs -> (terminal_set x = true -> evs = []) ->
  match loop x with
  | (SYield item, x') =>
      outlook evs x = (Yielded item :: (outlook evs x').1, (outlook evs x').2)
      /\ terminal_set x' = terminal_set x /\ resolve x' = resolve x
  | (SThrow e, x') => evs = [] /\ present x = ([Thrown e], true)
  | (SBreak, x') => evs = [] /\ present x = ([], true)
  | (SReturn, _) => False
  | (SAwait, x') =>
      outlook evs x' = outlook evs x /\ resolve x' = Armed /\
      queue x' = [] /\ error x' = JNull /\ completed x' = false
  end.
Proof.
  intros Hwf Hterm. unfold loop.
  destruct (shift_defined (queue x)) as [[item q']|] eqn:Hq.
  - split; [|done]. apply outlook_shift. by apply shift_defined_some.
  - apply shift_defined_none in Hq.
    unfold terminal_set in Hterm.
    destruct (is_not_null (error x)) eqn:He.
    + split; [by apply Hterm|].
      unfold present, verdict. by rewrite Hq, He.
    + destruct (completed x) eqn:Hc.
      * split; [by apply Hterm|].
        unfold present, verdict. by rewrite Hq, He, Hc.
      * repeat split; [|by apply is_not_null_false].
        by apply outlook_ext.
Qed.

Lemma emit_runnable b c x :
  well_formed (b ++ c) -> (terminal_set x = true -> b ++ c = []) ->
  well_formed c /\ (terminal_set (deliver b x) = true -> c = []).
Proof.
  revert x. induction b as [|n b IH]; intros x Hwf Hterm; [done|].
  rewrite deliver_cons.
  assert (Hx : terminal_set x = false).
  { destruct (terminal_set x); [|done]. by specialize (Hterm eq_refl). }
  destruct n as [v| |]; simpl in Hwf.
  - apply IH; [done|].
    unfold terminal_set, notify, on_next in *.
    rewrite call_resolve_error, call_resolve_completed. simpl. congruence.
  - apply app_eq_nil in Hwf as [-> ->]. done.
  - apply app_eq_nil in Hwf as [-> ->]. done.
Qed.

Lemma answers_cons n o items closed :
  answers (S n) (o :: items) closed = o :: answers n items closed.
Proof. reflexivity. Qed.

Lemma answers_done n : answers (S n) [] true = Done :: answers n [] true.
Proof. reflexivity. Qed.

Lemma answers_stalled n : answers n [] false = [].
Proof. by destruct n. Qed.

(** The part of [serve] that follows a run of the loop. *)
Lemma served_after_loop r rest st0 x0 :
  (forall st, runnable st -> gen st <> AwaitingWake ->
              served rest (log st) (due st) (serve rest st)) ->
  Forall (eq ReqNext) (r :: rest) ->
  resolve x0 = NoHandle ->
  well_formed (concat (script st0)) ->
  (terminal_set x0 = true -> concat (script st0) = []) ->
  served (r :: rest) (log st0) (outlook (concat (script st0)) x0)
    (match loop x0 with
     | (SYield item, x) =>
         serve rest (answer (Yielded item) (set_gen SuspendedYield (set_vars x st0)))
     | (SThrow e, x) =>
         serve rest (answer (Thrown e) (finally Errored (set_vars x st0)))
     | (SBreak, x) =>
         serve rest (answer Done (finally Exhausted (set_vars x st0)))
     | (SReturn, x) =>
         serve rest (answer Done (finally Abandoned (set_vars x st0)))
     | (SAwait, x) =>
         set_requests (r :: rest) (set_gen AwaitingWake (set_vars x st0))
     end).
Proof.
  intros IH Hrs Hres Hwf Hterm.
  pose proof (loop_spec x0 _ Hwf Hterm) as Hloop.
  destruct (loop x0) as [[item| e | | |] x].
  - destruct Hloop as (Hout & Ht & Hr).
    set (st2 := answer _ _).
    destruct (IH st2) as (Hset & Hlen & Heq); [|done|].
    { repeat split; simpl; [done| |congruence]. rewrite Ht. done. }
    split; [done|]. split.
    { rewrite Hlen. simpl. rewrite length_app. simpl. lia. }
    intros k. rewrite Heq, Hout. simpl. by rewrite <- app_assoc.
  - destruct Hloop as (Hevs & Hout).
    set (st2 := answer _ _).
    destruct (IH st2) as (Hset & Hlen & Heq); [|done|].
    { repeat split; simpl; auto. }
    split; [done|]. split.
    { rewrite Hlen. simpl. rewrite length_app. simpl. lia. }
    intros k. rewrite Heq. unfold outlook. rewrite Hevs.
    change (deliver [] x0) with x0. rewrite Hout.
    simpl. by rewrite <- app_assoc.
  - destruct Hloop as (Hevs & Hout).
    set (st2 := answer _ _).
    destruct (IH st2) as (Hset & Hlen & Heq); [|done|].
    { repeat split; simpl; auto. }
    split; [done|]. split.
    { rewrite Hlen. simpl. rewrite length_app. simpl. lia. }
    intros k. rewrite Heq. unfold outlook. rewrite Hevs.
    change (deliver [] x0) with x0. rewrite Hout.
    simpl. by rewrite <- app_assoc.
  - done.
  - destruct Hloop as (Hout & Hr & Hq & He & Hc).
    split; [|split].
    + repeat split; simpl; try done.
      * unfold terminal_set. by rewrite He, Hc.
      * right. done.
    + simpl. lia.
    + intros k. unfold due. cbn [gen script vars set_requests set_gen set_vars log requests].
      by rewrite Hout.
Qed.

Lemma serve_resumed r rest st st0 x0 :
  resume r st = Some (let '(s, x) := loop x0 in (s, set_vars x st0)) ->
  serve (r :: rest) st =
  match loop x0 with
  | (SYield item, x) =>
      serve rest (answer (Yielded item) (set_gen SuspendedYield (set_vars x st0)))
  | (SThrow e, x) =>
      serve rest (answer (Thrown e) (finally Errored (set_vars x st0)))
  | (SBreak, x) =>
      serve rest (answer Done (finally Exhausted (set_vars x st0)))
  | (SReturn, x) =>
      serve rest (answer Done (finally Abandoned (set_vars x st0)))
  | (SAwait, x) =>
      set_requests (r :: rest) (set_gen AwaitingWake (set_vars x st0))
  end.
Proof. simpl. intros ->. by destruct (loop x0) as [[] ?]. Qed.

Lemma emit_outlook st :
  outlook (concat (script (emit st))) (vars (emit st)) =
  outlook (concat (script st)) (vars st).
Proof.
  unfold emit. destruct (script st) as [|b rest] eqn:Hs; [by rewrite Hs|].
  simpl. unfold outlook. by rewrite deliver_app.
Qed.

Lemma emit_log st : log (emit st) = log st.
Proof. unfold emit. by destruct (script st). Qed.

Lemma emit_gen st : gen (emit st) = gen st.
Proof. unfold emit. by destruct (script st). Qed.

Lemma emit_requests st : requests (emit st) = requests st.
Proof. unfold emit. by destruct (script st). Qed.

Lemma emit_well_formed st :
  well_formed (concat (script st)) ->
  (terminal_set (vars st) = true -> concat (script st) = []) ->
  well_formed (concat (script (emit st))) /\
  (terminal_set (vars (emit st)) = true -> concat (script (emit st)) = []).
Proof.
  unfold emit. destruct (script st) as [|b rest] eqn:Hs; [by rewrite Hs|].
  simpl. apply emit_runnable.
Qed.

Lemma serve_spec rs st :
  Forall (eq ReqNext) rs -> runnable st ->
  (gen st = AwaitingWake -> rs <> []) ->
  served rs (log st) (due st) (serve rs st).
Proof.
  revert st. induction rs as [|r rest IH]; intros st Hrs Hrun Hne.
  - destruct Hrun as (Hwf & Hterm & Hgen).
    repeat split; simpl; try done.
    destruct (gen st); try done. by destruct Hne.
  - assert (IH' : forall st', runnable st' -> gen st' <> AwaitingWake ->
                    served rest (log st') (due st') (serve rest st')).
    { intros st' ? ?. apply IH; [by inversion Hrs|done|done]. }
    assert (r = ReqNext) as -> by (by inversion Hrs).
    destruct Hrun as (Hwf & Hterm & Hgen).
    destruct (gen st) eqn:Hg.
    + destruct (emit_well_formed st Hwf Hterm) as [Hwf' Hterm'].
      rewrite (serve_resumed _ _ _ (subscribe st) (vars (subscribe st))).
      2:{ unfold resume. by rewrite Hg. }
      unfold due. rewrite Hg, <- emit_outlook.
      replace (log st) with (log (subscribe st)) by apply emit_log.
      apply served_after_loop; try done.
      unfold subscribe, emit. destruct (script st) eqn:Hs; simpl.
      * by rewrite Hgen.
      * apply deliver_no_handle. by rewrite Hgen.
    + rewrite (serve_resumed _ _ _ st (vars st)).
      2:{ unfold resume. by rewrite Hg. }
      unfold due. rewrite Hg.
      by apply served_after_loop.
    + destruct Hgen as [Hfired|(Harmed & Hq & He & Hc)].
      * rewrite (serve_resumed _ _ _ st
                   {| queue := queue (vars st); error := error (vars st);
                      completed := completed (vars st); resolve := NoHandle |}).
        2:{ unfold resume. by rewrite Hg, Hfired. }
        unfold due. rewrite Hg.
        rewrite <- (outlook_ext _
                   {| queue := queue (vars st); error := error (vars st);
                      completed := completed (vars st); resolve := NoHandle |}
                   (vars st)) by done.
        by apply served_after_loop.
      * assert (Hs : serve (ReqNext :: rest) st = set_requests (ReqNext :: rest) st).
        { simpl. unfold resume. by rewrite Hg, Harmed. }
        rewrite Hs. repeat split; simpl; try done.
        -- by rewrite Hg; right.
        -- by rewrite Hg.
    + assert (Hs : serve (ReqNext :: rest) st =
                   serve rest (answer Done (set_gen Completed st))).
      { simpl. unfold resume. by rewrite Hg. }
      rewrite Hs.
      destruct (IH' (answer Done (set_gen Completed st))) as (Hset & Hlen & Heq);
        [done|done|].
      split; [done|]. split.
      { rewrite Hlen. simpl. rewrite length_app. simpl. lia. }
      intros k. rewrite Heq.
      assert (Hd : due st = ([], true)) by (unfold due; by rewrite Hg).
      rewrite Hd. simpl. by rewrite <- app_assoc.
Qed.

End Serving.

(** ** Runs *)

Section Runs.
Import Bridge Due.

Lemma step_spec st a :
  settled st -> a <> Return ->
  settled (step st a) /\
  length (log (step st a)) + length (requests (step st a)) =
    length (log st) + length (requests st) + pulls_of a /\
  forall k,
    log (step st a) ++
      answers (length (requests (step st a)) + k)
              (due (step st a)).1 (due (step st a)).2 =
    log st ++ answers (length (requests st) + pulls_of a + k)
                      (due st).1 (due st).2.
Proof.
  intros (Hrun & Hreqs & Hgen) Ha.
  destruct a; [|done|]; simpl.
  - destruct (serve_spec (requests st ++ [ReqNext]) st) as (Hset & Hlen & Heq).
    + apply Forall_app. split; [done|]. by constructor.
    + done.
    + intros _. by destruct (requests st).
    + unfold request. split; [done|]. rewrite length_app in Hlen, Heq.
      simpl in *. split; [lia|done].
  - unfold window.
    destruct Hrun as (Hwf & Hterm & Hres).
    destruct (emit_well_formed st Hwf Hterm) as [Hwf' Hterm'].
    destruct (gen st) eqn:Hg.
    + split; [|split; [lia|]].
      * unfold settled, runnable. by rewrite Hg.
      * intros k. by rewrite Nat.add_0_r.
    + split; [|split].
      * unfold settled, runnable.
        rewrite ?emit_gen, ?Hg, ?emit_requests. repeat split; try done.
        unfold emit. destruct (script st); [done|]. simpl.
        by apply deliver_no_handle.
      * rewrite emit_log, emit_requests. lia.
      * intros k. unfold due. rewrite emit_gen, Hg, emit_outlook.
        by rewrite emit_log, emit_requests, Nat.add_0_r.
    + destruct Hgen as [Harmed Hne].
      destruct Hres as [Hfired|(_ & Hq & He & Hc)]; [congruence|].
      destruct (serve_spec (requests (emit st)) (emit st))
        as (Hset & Hlen & Heq).
      * by rewrite emit_requests.
      * unfold runnable. rewrite emit_gen, Hg. repeat split; try done.
        unfold emit. destruct (script st) as [|b rest] eqn:Hs.
        { by right. }
        simpl. rewrite (deliver_armed b (vars st) Harmed).
        destruct b; [|by left]. by right.
      * intros _. by rewrite emit_requests.
      * split; [done|]. rewrite emit_log, emit_requests in *.
        split; [lia|]. intros k. rewrite Heq.
        unfold due. rewrite emit_gen, Hg, emit_outlook.
        by rewrite Nat.add_0_r.
    + split; [|split; [lia|]].
      * unfold settled, runnable. by rewrite Hg.
      * intros k. by rewrite Nat.add_0_r.
Qed.

Lemma count_pulls_cons a sched :
  count_pulls (a :: sched) = pulls_of a + count_pulls sched.
Proof. unfold count_pulls. by destruct a. Qed.

Lemma no_return_cons a sched :
  no_return (a :: sched) = true -> a <> Return /\ no_return sched = true.
Proof. unfold no_return. simpl. by destruct a. Qed.

Lemma run_spec sched st :
  settled st -> no_return sched = true ->
  settled (run sched st) /\
  length (log (run sched st)) + length (requests (run sched st)) =
    length (log st) + length (requests st) + count_pulls sched /\
  forall k,
    log (run sched st) ++
      answers (length (requests (run sched st)) + k)
              (due (run sched st)).1 (due (run sched st)).2 =
    log st ++ answers (length (requests st) + count_pulls sched + k)
                      (due st).1 (due st).2.
Proof.
  revert st. induction sched as [|a sched IH]; intros st Hset Hnr.
  - change (run [] st) with st. change (count_pulls []) with 0.
    split; [done|]. split; [lia|].
    intros k. by rewrite Nat.add_0_r.
  - apply no_return_cons in Hnr as [Ha Hnr].
    destruct (step_spec st a Hset Ha) as (Hset1 & Hlen1 & Heq1).
    destruct (IH (step st a) Hset1 Hnr) as (Hset2 & Hlen2 & Heq2).
    change (run (a :: sched) st) with (run sched (step st a)).
    rewrite count_pulls_cons.
    split; [done|]. split; [lia|].
    intros k. rewrite Heq2.
    specialize (Heq1 (count_pulls sched + k)).
    replace (length (requests (step st a)) + count_pulls sched + k)
      with (length (requests (step st a)) + (count_pulls sched + k)) by lia.
    rewrite Heq1. f_equal. f_equal. lia.
Qed.

Lemma settled_initial obs :
  well_formed (emissions obs) -> settled (observableToAsyncGenerator obs).
Proof.
  intros Hwf. repeat split; simpl; done.
Qed.

End Runs.

(** ** Every schedule *)

Section Tidy.
Import Bridge Due.

Lemma loop_yields_defined x item x' :
  loop x = (SYield item, x') -> item <> JUndefined.
Proof.
  unfold loop.
  destruct (shift_defined (queue x)) as [[item' q']|] eqn:Hq.
  - intros [= <- _]. apply shift_defined_is_defined in Hq. by destruct item'.
  - by repeat case_match.
Qed.

Lemma loop_never_returns x x' : loop x <> (SReturn, x').
Proof. unfold loop. by repeat case_match. Qed.

Lemma continue_with_loop st0 x0 s st' :
  (let '(s, x) := loop x0 in (s, set_vars x st0)) = (s, st') ->
  log st' = log st0 /\ unsubscribed st' = unsubscribed st0 /\
  exit st' = exit st0 /\
  (forall item, s = SYield item -> item <> JUndefined) /\ s <> SReturn.
Proof.
  destruct (loop x0) as [s0 x] eqn:Hl. intros [= <- <-].
  repeat split.
  - intros item ->. by eapply loop_yields_defined.
  - intros ->. by eapply loop_never_returns.
Qed.

Lemma resume_frame r st s st' :
  resume r st = Some (s, st') ->
  log st' = log st /\ unsubscribed st' = unsubscribed st /\
  exit st' = exit st /\ gen st <> Completed /\
  (forall item, s = SYield item -> item <> JUndefined) /\
  (s = SReturn -> gen st = SuspendedYield).
Proof.
  unfold resume, continue_with, after_await, subscribe.
  destruct (gen st) eqn:Hg, r; try done.
  - intros [= H]. apply continue_with_loop in H as (Hl & Hu & He & Hd & Hr).
    revert Hl Hu He. unfold emit. destruct (script st); simpl; by intros -> -> ->.
  - intros [= H]. by apply continue_with_loop in H as (-> & -> & -> & Hd & Hr).
  - by intros [= <- <-].
  - destruct (resolve (vars st)); try done.
    intros [= H]. by apply continue_with_loop in H as (-> & -> & -> & Hd & Hr).
  - destruct (resolve (vars st)); try done.
    intros [= H]. by apply continue_with_loop in H as (-> & -> & -> & Hd & Hr).
Qed.

Lemma serve_tidy rs st : tidy st -> tidy (serve rs st).
Proof.
  revert st. induction rs as [|r rest IH]; intros st Ht; [done|].
  destruct Ht as (Hu & He & Hd & Hs & Hn & Hx).
  simpl. destruct (resume r st) as [[s st']|] eqn:Hres.
  - apply resume_frame in Hres as (Hl' & Hu' & He' & Hg & Hy & Hr).
    specialize (He Hg). rewrite He in Hu.
    destruct s as [item|e| | |]; [apply IH ..|];
      unfold tidy; simpl; rewrite ?Hl', ?Hu', ?He', ?He, ?Hu;
      repeat split; try done; try snoc_log;
      try (intros _; apply Exists_app; right; by constructor).
    intros [= ->]. by eapply Hy.
  - destruct (gen st) eqn:Hg.
    + apply IH. unfold tidy. simpl. rewrite (He ltac:(done)) in *.
      rewrite (Hs eq_refl). repeat split; try done; by repeat constructor.
    + unfold resume in Hres. rewrite Hg in Hres. by destruct r.
    + unfold tidy. simpl. rewrite Hg. by repeat split.
    + apply IH. unfold tidy. simpl.
      repeat split; try done; try snoc_log.
      * intros _ Hex. snoc_log.
      * intros _. apply Exists_app. right. by constructor.
Qed.

Lemma emit_tidy st : tidy st -> tidy (emit st).
Proof. unfold emit. by destruct (script st). Qed.

Lemma step_tidy st a : tidy st -> tidy (step st a).
Proof.
  intros Ht. destruct a; simpl; unfold request, window.
  - by apply serve_tidy.
  - by apply serve_tidy.
  - destruct (gen st); try done.
    + by apply emit_tidy.
    + by apply serve_tidy, emit_tidy.
Qed.

Lemma run_tidy sched st : tidy st -> tidy (run sched st).
Proof.
  revert st. induction sched as [|a sched IH]; intros st Ht; [done|].
  apply (IH (step st a)). by apply step_tidy.
Qed.

Lemma tidy_initial obs : tidy (observableToAsyncGenerator obs).
Proof. by repeat split. Qed.

End Tidy.

(** ** Sources that send values and then one last notification *)

Section ClosedForms.
Import Bridge Due.

Lemma well_formed_values vs tail :
  well_formed tail -> well_formed (map Next vs ++ tail).
Proof. intros Ht. by induction vs. Qed.

Lemma nexts_values vs tail : nexts (map Next vs ++ tail) = vs ++ nexts tail.
Proof. induction vs as [|v vs IH]; [done|]. simpl. by rewrite IH. Qed.

Lemma error_after_values vs tail e :
  error_after (map Next vs ++ tail) e = error_after tail e.
Proof. unfold error_after. rewrite foldl_app. f_equal. by induction vs. Qed.

Lemma completed_after_values vs tail c :
  completed_after (map Next vs ++ tail) c = completed_after tail c.
Proof. unfold completed_after. rewrite foldl_app. f_equal. by induction vs. Qed.

Lemma outlook_values vs tail :
  outlook (map Next vs ++ tail) initial_vars =
  present {| queue := vs ++ nexts tail; error := error_after tail JNull;
             completed := completed_after tail false; resolve := NoHandle |}.
Proof.
  unfold outlook. apply present_ext; simpl.
  - by rewrite deliver_queue, nexts_values.
  - by rewrite deliver_error, error_after_values.
  - by rewrite deliver_completed, completed_after_values.
Qed.

Lemma outlook_completes vs :
  outlook (map Next vs ++ [Complete]) initial_vars =
  (map Yielded (defined vs), true).
Proof.
  rewrite outlook_values. unfold present, verdict. simpl.
  by rewrite !app_nil_r.
Qed.

Lemma outlook_fails vs e :
  is_not_null e = true ->
  outlook (map Next vs ++ [Error e]) initial_vars =
  (map Yielded (defined vs) ++ [Thrown (thrown_for e)], true).
Proof.
  intros He. rewrite outlook_values. unfold present, verdict. simpl.
  by rewrite !app_nil_r, He.
Qed.

Lemma outlook_null vs :
  outlook (map Next vs ++ [Error JNull]) initial_vars =
  (map Yielded (defined vs), false).
Proof.
  rewrite outlook_values. unfold present, verdict. simpl.
  by rewrite !app_nil_r.
Qed.

Lemma answers_closed n items :
  answers n items true = take n (items ++ replicate n Done).
Proof.
  revert items. induction n as [|n IH]; intros items; [done|].
  destruct items as [|o items].
  - simpl. by rewrite IH.
  - change (take (S n) ((o :: items) ++ replicate (S n) Done))
      with (o :: take n (items ++ replicate (S n) Done)).
    cbn [answers]. rewrite IH. f_equal.
    rewrite !take_app, !take_replicate. f_equal. f_equal. lia.
Qed.

Lemma answers_open n items : answers n items false = take n items.
Proof.
  revert items. induction n as [|n IH]; intros items; [done|].
  destruct items as [|o items]; simpl; [done|]. by rewrite IH.
Qed.

(** What the consumer has got once the source has sent everything. *)
Lemma pulled_spec obs sched :
  well_formed (emissions obs) -> no_return sched = true ->
  all_sent (run sched (observableToAsyncGenerator obs)) ->
  pulled obs sched =
    answers (count_pulls sched) (outlook (emissions obs) initial_vars).1
            (outlook (emissions obs) initial_vars).2 /\
  settled (run sched (observableToAsyncGenerator obs)) /\
  length (pulled obs sched) +
    length (requests (run sched (observableToAsyncGenerator obs))) =
  count_pulls sched.
Proof.
  intros Hwf Hnr Hsent.
  destruct (run_spec sched _ (settled_initial obs Hwf) Hnr)
    as (Hset & Hlen & Heq).
  split; [|split; [done|exact Hlen]].
  specialize (Heq 0). rewrite !Nat.add_0_r in Heq.
  change (due (observableToAsyncGenerator obs))
    with (outlook (emissions obs) initial_vars) in Heq.
  change (log (observableToAsyncGenerator obs)) with (@nil Outcome) in Heq.
  change (length (requests (observableToAsyncGenerator obs))) with 0 in Heq.
  unfold pulled. cbn [app Nat.add] in Heq. rewrite <- Heq.
  set (st := run sched _) in *.
  assert (Hnone : answers (length (requests st)) (due st).1 (due st).2 = []).
  { destruct Hset as ((_ & _ & Hres) & _ & Hgen).
    destruct (gen st) eqn:Hg; try (by rewrite Hgen).
    destruct Hgen as [Harmed _].
    destruct Hres as [Hfired|(_ & Hq & He & Hc)]; [congruence|].
    unfold due. rewrite Hg. unfold all_sent in Hsent. rewrite Hsent.
    unfold outlook, present, verdict. simpl. rewrite Hq, He, Hc. simpl.
    apply answers_stalled. }
  by rewrite Hnone, app_nil_r.
Qed.

End ClosedForms.

(** ** The bridge: order, failures, cleanup *)

Section BridgeClaims.
Import Bridge Due.

(** C1, as the specification states it, fails: a source that emits
    ["a"], [undefined], ["b"] and completes is pulled as ["a"], ["b"], done;
    the [undefined] it emitted is not among the answers. *)
Lemma order_preserved_counterexample :
  let obs := mkObservable
               [Next (JStr "a"); Next JUndefined; Next (JStr "b"); Complete] [] in
  let sched := [Pull; Pull; Pull; Pull] in
  emissions obs = map Next [JStr "a"; JUndefined; JStr "b"] ++ [Complete] /\
  Bridge.pulled obs sched = [Yielded (JStr "a"); Yielded (JStr "b"); Done; Done] /\
  Bridge.pulled obs sched <>
    take (count_pulls sched)
         (map Yielded [JStr "a"; JUndefined; JStr "b"] ++
          replicate (count_pulls sched) Done).
Proof. by repeat split. Qed.

(** C1, amended: for every push source that emits V1..Vn, at once or over
    several windows, and then completes, the pull sequence answers the
    consumer's pulls with exactly those of V1..Vn that are not [undefined],
    in the order emitted and one per pull, none of them dropped, duplicated
    or reordered, and with done from then on. *)
Theorem order_preserved obs vs sched :
  emissions obs = map Next vs ++ [Complete] ->
  no_return sched = true ->
  all_sent (run sched (observableToAsyncGenerator obs)) ->
  Bridge.pulled obs sched =
    take (count_pulls sched)
         (map Yielded (defined vs) ++ replicate (count_pulls sched) Done).
Proof.
  intros Hem Hnr Hsent.
  destruct (pulled_spec obs sched) as (Hp & _ & _); [|done|done|].
  { rewrite Hem. by apply well_formed_values. }
  by rewrite Hp, Hem, outlook_completes, answers_closed.
Qed.

Lemma order_preserved_witness :
  Bridge.pulled
    (mkObservable [Next (JStr "1"); Next (JStr "2")]
                  [[Next (JStr "3"); Next (JStr "4")]; [Complete]])
    [Pull; Pull; Pull; Window; Pull; Pull; Window] =
  [Yielded (JStr "1"); Yielded (JStr "2"); Yielded (JStr "3");
   Yielded (JStr "4"); Done].
Proof.
  apply (order_preserved _ [JStr "1"; JStr "2"; JStr "3"; JStr "4"]).
  - reflexivity.
  - reflexivity.
  - reflexivity.
Defined.

(** C2, as the specification states it, fails: after [undefined], ["1"] and
    an error whose cause is [null], three pulls get ["1"] and nothing else:
    [undefined] is not yielded and no failure is ever raised. *)
Lemma drain_before_error_counterexample :
  let obs := mkObservable
               [Next JUndefined; Next (JStr "1"); Error JNull] [] in
  let sched := [Pull; Pull; Pull] in
  emissions obs = map Next [JUndefined; JStr "1"] ++ [Error JNull] /\
  Bridge.pulled obs sched = [Yielded (JStr "1")] /\
  forall e, Bridge.pulled obs sched <>
            [Yielded JUndefined; Yielded (JStr "1"); Thrown e].
Proof. by repeat split. Qed.

(** C2, amended: for every push source that emits values and then signals
    an error whose cause is not [null], the pull sequence first yields every
    value emitted before the error that is not [undefined], raises the
    failure only once the queue is drained, and delivers no value after it
    (every later pull is answered done). *)
Theorem drain_before_error obs vs e sched :
  emissions obs = map Next vs ++ [Error e] ->
  is_not_null e = true ->
  no_return sched = true ->
  all_sent (run sched (observableToAsyncGenerator obs)) ->
  Bridge.pulled obs sched =
    take (count_pulls sched)
         (map Yielded (defined vs) ++
          Thrown (thrown_for e) :: replicate (count_pulls sched) Done).
Proof.
  intros Hem He Hnr Hsent.
  destruct (pulled_spec obs sched) as (Hp & _ & _); [|done|done|].
  { rewrite Hem. by apply well_formed_values. }
  rewrite Hp, Hem, outlook_fails, answers_closed by done. simpl.
  by rewrite <- app_assoc.
Qed.

Lemma drain_before_error_witness :
  Bridge.pulled
    (mkObservable [Next (JStr "1")] [[Error (JError "Error" "boom")]])
    [Pull; Pull; Window; Pull] =
  [Yielded (JStr "1"); Thrown (JError "Error" "boom"); Done].
Proof.
  apply (drain_before_error _ [JStr "1"] (JError "Error" "boom")).
  - reflexivity.
  - reflexivity.
  - reflexivity.
  - reflexivity.
Defined.




Lemma never_yields_undefined obs sched :
  Yielded JUndefined ∉ Bridge.pulled obs sched.
Proof.
  destruct (run_tidy sched _ (tidy_initial obs)) as (_ & _ & Hd & _).
  intros Hin. unfold Bridge.pulled in Hin.
  rewrite Forall_forall in Hd. by apply (Hd _ Hin).
Qed.

Lemma defined_app vs ws : defined (vs ++ ws) = defined vs ++ defined ws.
Proof. apply List.filter_app. Qed.

(** C9: an emission whose value is [undefined] yields nothing: the inner
    loop takes the entry off the queue and goes on with the rest, no pull is
    ever answered with [undefined], and the values emitted before and after
    it are yielded in their order. *)
Theorem undefined_emission_skipped obs before after sched :
  emissions obs = map Next (before ++ JUndefined :: after) ++ [Complete] ->
  no_return sched = true ->
  all_sent (run sched (observableToAsyncGenerator obs)) ->
  Bridge.pulled obs sched =
    take (count_pulls sched)
         (map Yielded (defined before ++ defined after) ++
          replicate (count_pulls sched) Done) /\
  (Yielded JUndefined ∉ Bridge.pulled obs sched) /\
  forall q, shift_defined (JUndefined :: q) = shift_defined q.
Proof.
  intros Hem Hnr Hsent. split; [|split; [apply never_yields_undefined|done]].
  destruct (pulled_spec obs sched) as (Hp & _ & _); [|done|done|].
  { rewrite Hem. by apply well_formed_values. }
  rewrite Hp, Hem, outlook_completes, answers_closed.
  by rewrite defined_app.
Qed.

Lemma undefined_emission_skipped_witness :
  let obs := mkObservable [Next (JStr "a")]
                          [[Next JUndefined]; [Next (JStr "b"); Complete]] in
  let sched := [Pull; Pull; Window; Window; Pull; Pull] in
  Bridge.pulled obs sched =
    take 4 (map Yielded [JStr "a"; JStr "b"] ++ replicate 4 Done) /\
  (Yielded JUndefined ∉ Bridge.pulled obs sched) /\
  forall q, shift_defined (JUndefined :: q) = shift_defined q.
Proof.
  apply (undefined_emission_skipped _ [JStr "a"] [JStr "b"]).
  - reflexivity.
  - reflexivity.
  - reflexivity.
Defined.

(** A [null] cause leaves the variables as they are; only the waiting loop
    is woken. *)
Lemma on_error_null x : error x = JNull -> on_error JNull x = call_resolve x.
Proof. intros He. unfold on_error. rewrite <- He. by destruct x. Qed.

(** C10: when the source signals an error whose cause is [null], no failure
    ever reaches the consumer: the pulls are answered with the buffered
    values and with nothing else, neither a failure nor done; a pull beyond
    them finds the variables as an active source leaves them ([error] is
    [null], [completed] is [false]) and stays suspended at the [await] with
    a fresh handle, and [unsubscribe] is not called. *)
Theorem null_error_not_surfaced obs vs sched :
  emissions obs = map Next vs ++ [Error JNull] ->
  no_return sched = true ->
  all_sent (run sched (observableToAsyncGenerator obs)) ->
  let st := run sched (observableToAsyncGenerator obs) in
  Bridge.pulled obs sched =
    take (count_pulls sched) (map Yielded (defined vs)) /\
  (forall e, Thrown e ∉ Bridge.pulled obs sched) /\
  (Done ∉ Bridge.pulled obs sched) /\
  gen st <> Completed /\ unsubscribed st = 0 /\
  (length (defined vs) < count_pulls sched ->
   gen st = AwaitingWake /\ resolve (vars st) = Armed /\
   error (vars st) = JNull /\ completed (vars st) = false /\
   length (requests st) = count_pulls sched - length (defined vs)).
Proof.
  intros Hem Hnr Hsent st.
  destruct (pulled_spec obs sched) as (Hp & Hset & Hlen); [|done|done|].
  { rewrite Hem. by apply well_formed_values. }
  rewrite Hem, outlook_null, answers_open in Hp. simpl in Hp.
  assert (Hyield : forall o, o ∈ Bridge.pulled obs sched ->
                             exists value, o = Yielded value).
  { intros o Ho. rewrite Hp in Ho.
    apply elem_of_take in Ho as (i & Ho & _).
    apply list_lookup_fmap_Some in Ho as (v & -> & _). by exists v. }
  destruct (run_tidy sched _ (tidy_initial obs))
    as (Hu & He & _ & _ & _ & Hx).
  fold st in Hu, He, Hx, Hset, Hlen.
  assert (Hg : gen st <> Completed).
  { intros Hg. apply Hx in Hg. apply Exists_exists in Hg as (o & Ho & Hno).
    destruct (Hyield o Ho) as [value ->]. by apply (Hno value). }
  split; [done|]. split.
  { intros e Hin. by destruct (Hyield _ Hin). }
  split.
  { intros Hin. by destruct (Hyield _ Hin). }
  split; [done|]. split.
  { rewrite Hu, (He Hg). done. }
  intros Hmore.
  assert (Hl : length (Bridge.pulled obs sched) = length (defined vs)).
  { rewrite Hp, length_take, length_map. lia. }
  rewrite Hl in Hlen.
  destruct Hset as ((_ & _ & Hres) & _ & Hgen).
  destruct (gen st) eqn:Hgs;
    try (rewrite Hgen in Hlen; simpl in Hlen; lia).
  destruct Hgen as [Harmed _].
  destruct Hres as [Hfired|(_ & _ & Her & Hc)]; [congruence|].
  repeat split; try done. lia.
Qed.

Lemma null_error_not_surfaced_witness :
  let obs := mkObservable [Next (JStr "1")] [[Error JNull]] in
  let sched := [Pull; Pull; Window; Pull] in
  let st := run sched (observableToAsyncGenerator obs) in
  Bridge.pulled obs sched = take 3 (map Yielded [JStr "1"]) /\
  (forall e, Thrown e ∉ Bridge.pulled obs sched) /\
  (Done ∉ Bridge.pulled obs sched) /\
  gen st <> Completed /\ unsubscribed st = 0 /\
  (1 < 3 ->
   gen st = AwaitingWake /\ resolve (vars st) = Armed /\
   error (vars st) = JNull /\ completed (vars st) = false /\
   length (requests st) = 3 - 1).
Proof.
  apply (null_error_not_surfaced
           (mkObservable [Next (JStr "1")] [[Error JNull]]) [JStr "1"]
           [Pull; Pull; Window; Pull]).
  - reflexivity.
  - reflexivity.
  - reflexivity.
Defined.

(** The three exit paths, and the generator that is never entered. *)
Example exit_by_exhaustion :
  let st := run [Pull; Pull]
              (observableToAsyncGenerator
                 (mkObservable [Next (JStr "1"); Complete] [])) in
  exit st = Some Exhausted /\ unsubscribed st = 1.
Proof. done. Qed.

Example exit_by_error :
  let st := run [Pull; Pull]
              (observableToAsyncGenerator
                 (mkObservable [Next (JStr "1"); Error (JStr "boom")] [])) in
  exit st = Some Errored /\ unsubscribed st = 1.
Proof. done. Qed.

Example exit_by_abandonment :
  let st := run [Pull; Return; Window; Return; Pull]
              (observableToAsyncGenerator
                 (mkObservable [Next (JStr "1"); Next (JStr "2")] [[Complete]])) in
  exit st = Some Abandoned /\ unsubscribed st = 1.
Proof. done. Qed.

Example never_entered :
  let st := run [Return; Pull]
              (observableToAsyncGenerator
                 (mkObservable [Next (JStr "1"); Complete] [])) in
  exit st = None /\ unsubscribed st = 0 /\ log st = [Done; Done].
Proof. done. Qed.

(** A [return()] sent while a pull waits at the [await] stays in the request
    queue; it takes effect when the producer's next notification has let the
    body reach a [yield] or its end. *)
Example return_behind_a_waiting_pull :
  let obs := mkObservable [Next (JStr "1")] [[Next (JStr "2")]] in
  let waiting := run [Pull; Pull; Return] (observableToAsyncGenerator obs) in
  let woken := run [Pull; Pull; Return; Window] (observableToAsyncGenerator obs) in
  requests waiting = [ReqNext; ReqReturn] /\ unsubscribed waiting = 0 /\
  log woken = [Yielded (JStr "1"); Yielded (JStr "2"); Done] /\
  exit woken = Some Abandoned /\ unsubscribed woken = 1.
Proof. done. Qed.

End BridgeClaims.

(** ** The adapters *)

Section AdapterClaims.
Import Bridge Due Async Router.

Lemma last_value_values vs v rest acc :
  Rx.last_value (map Next (vs ++ [v]) ++ Complete :: rest) acc = Fulfilled v.
Proof.
  revert acc. induction vs as [|w vs IH]; intros acc; [done|]. apply IH.
Qed.

Lemma play_failing_yields_nothing e sched value :
  Yielded value ∉ play [Thrown e] sched.
Proof.
  assert (Hnil : forall sched', Yielded value ∉ play [] sched').
  { induction sched' as [|a sched' IH]; simpl; [apply not_elem_of_nil|].
    destruct a; try done; by apply not_elem_of_cons. }
  induction sched as [|a sched IH]; simpl; [apply not_elem_of_nil|].
  destruct a; try done; by apply not_elem_of_cons.
Qed.

(** C4, as the specification states it, fails: a server-streaming handler
    that returns the value [{ data: "x" }] is not turned into a stream of
    that one value; the first pull fails with the unsupported-input error. *)
Lemma streaming_adapter_counterexample :
  let value := JObject [("data", JStr "x")] in
  let handler : MessageHandler := fun _ _ => Direct value in
  exists f,
    adapter RX_STREAMING handler = inr (ServerStreamHandler f) /\
    Async.pulled (f JNull JNull) [Pull; Pull] =
      [Thrown (JError "Error"
         "Unsupported input type. Expected Observable or AsyncGenerator, got object");
       Done] /\
    Async.pulled (f JNull JNull) [Pull; Pull] <> [Yielded value; Done].
Proof. eexists. by repeat split. Qed.

(** C4, amended: for the ServerStream and BidiStream adapters, a handler
    result that is a push-style stream, returned at once or through a
    deferred value, is handed to the bridge, and every value it emits other
    than [undefined] is delivered to the caller in order until completion or
    error; a result that is neither a push-style stream nor a pull sequence
    (an immediate or deferred plain value) is not normalized: the first pull
    fails with the unsupported-input error and no value is delivered. *)
Theorem streaming_adapter streamingType handler request context :
  streamingType = RX_STREAMING \/ streamingType = DUPLEX_STREAMING ->
  exists f p,
    adapter streamingType handler = inr f /\
    call_streaming f request context = Some p /\
    (forall o sched,
       await (handler request context) = Fulfilled (JObservable o) ->
       Async.pulled p sched = Bridge.pulled o sched) /\
    (forall o vs sched,
       await (handler request context) = Fulfilled (JObservable o) ->
       emissions o = map Next vs ++ [Complete] ->
       no_return sched = true ->
       all_sent (run sched (observableToAsyncGenerator o)) ->
       Async.pulled p sched =
         take (count_pulls sched)
              (map Yielded (defined vs) ++ replicate (count_pulls sched) Done)) /\
    (forall o vs e sched,
       await (handler request context) = Fulfilled (JObservable o) ->
       emissions o = map Next vs ++ [Error e] -> is_not_null e = true ->
       no_return sched = true ->
       all_sent (run sched (observableToAsyncGenerator o)) ->
       Async.pulled p sched =
         take (count_pulls sched)
              (map Yielded (defined vs) ++
               Thrown (thrown_for e) :: replicate (count_pulls sched) Done)) /\
    (forall value sched,
       await (handler request context) = Fulfilled value ->
       isObservable value = false -> isAsyncGenerator value = false ->
       Async.pulled p sched = play [Thrown (unsupported value)] sched /\
       forall v, Yielded v ∉ Async.pulled p sched).
Proof.
  intros Hkind.
  assert (Hbridged : forall o, await (handler request context) = Fulfilled (JObservable o) ->
            streamingHandler handler request context = Bridged o).
  { intros o Ho. unfold streamingHandler. by rewrite Ho. }
  assert (Hf : exists f, adapter streamingType handler = inr f /\
                 call_streaming f request context =
                 Some (streamingHandler handler request context)).
  { destruct Hkind as [-> | ->]; eexists; by split. }
  destruct Hf as (f & Hf & Hcall).
  exists f, (streamingHandler handler request context).
  split; [done|]. split; [done|]. split; [|split; [|split]].
  - intros o sched Ho. by rewrite (Hbridged o Ho).
  - intros o vs sched Ho Hem Hnr Hsent. rewrite (Hbridged o Ho). simpl.
    destruct (pulled_spec o sched) as (Hp & _ & _); [|done|done|].
    { rewrite Hem. by apply well_formed_values. }
    by rewrite Hp, Hem, outlook_completes, answers_closed.
  - intros o vs e sched Ho Hem He Hnr Hsent. rewrite (Hbridged o Ho). simpl.
    destruct (pulled_spec o sched) as (Hp & _ & _); [|done|done|].
    { rewrite Hem. by apply well_formed_values. }
    rewrite Hp, Hem, outlook_fails, answers_closed by done. simpl.
    by rewrite <- app_assoc.
  - intros value sched Hval Hobs Hgen.
    assert (Hfail : streamingHandler handler request context =
                    Failing (unsupported value)).
    { unfold streamingHandler. rewrite Hval. by destruct value. }
    rewrite Hfail. split; [done|].
    intros v. apply play_failing_yields_nothing.
Qed.

Lemma streaming_adapter_witness :
  let o := mkObservable [Next (JStr "1")] [[Next (JStr "2"); Complete]] in
  let handler : MessageHandler :=
    fun _ _ => Deferred (Fulfilled (JObservable o)) in
  exists f p,
    adapter DUPLEX_STREAMING handler = inr f /\
    call_streaming f JNull JNull = Some p /\
    Async.pulled p [Pull; Pull; Window; Pull] =
      [Yielded (JStr "1"); Yielded (JStr "2"); Done].
Proof.
  destruct (streaming_adapter DUPLEX_STREAMING
              (fun _ _ => Deferred (Fulfilled (JObservable
                 (mkObservable [Next (JStr "1")] [[Next (JStr "2"); Complete]]))))
              JNull JNull (or_intror eq_refl))
    as (f & p & Hf & Hp & _ & Hdone & _).
  exists f, p. split; [exact Hf|]. split; [exact Hp|].
  apply (Hdone (mkObservable [Next (JStr "1")] [[Next (JStr "2"); Complete]])
               [JStr "1"; JStr "2"]).
  - reflexivity.
  - reflexivity.
  - reflexivity.
  - reflexivity.
Defined.

(** C5: for the Unary and ClientStream adapters, when the stream the
    handler's result is normalized to emits one or more values and then
    completes, the call resolves to the last of them; the earlier ones are
    dropped. *)
Theorem last_value_resolved streamingType handler request context result vs v :
  streamingType = NO_STREAMING \/ streamingType = PT_STREAMING ->
  await (handler request context) = Fulfilled result ->
  emissions (transformToObservable (Direct result)) =
    map Next (vs ++ [v]) ++ [Complete] ->
  exists f,
    adapter streamingType handler = inr f /\
    call_single f request context = Some (Fulfilled v).
Proof.
  intros Hkind Hres Hem.
  assert (Hv : lastValueHandler handler request context = Fulfilled v).
  { unfold lastValueHandler, Rx.lastValueFrom. rewrite Hres, Hem.
    apply last_value_values. }
  destruct Hkind as [-> | ->]; eexists; (split; [reflexivity|]);
    simpl; by rewrite Hv.
Qed.

Lemma last_value_resolved_witness :
  exists f,
    adapter NO_STREAMING
      (fun _ _ => Direct (JObservable
         (mkObservable [Next (JStr "1")] [[Next (JStr "2")]; [Complete]]))) = inr f /\
    call_single f JNull JNull = Some (Fulfilled (JStr "2")).
Proof.
  apply (last_value_resolved NO_STREAMING _ JNull JNull
           (JObservable (mkObservable [Next (JStr "1")]
                                      [[Next (JStr "2")]; [Complete]]))
           [JStr "1"] (JStr "2")).
  - left; reflexivity.
  - reflexivity.
  - reflexivity.
Defined.

(** C6: for the Unary and ClientStream adapters, when the stream the
    handler's result is normalized to completes without having emitted a
    value, the call fails with the empty-result error; it neither resolves
    nor stays pending. *)
Theorem empty_result_rejected streamingType handler request context result :
  streamingType = NO_STREAMING \/ streamingType = PT_STREAMING ->
  await (handler request context) = Fulfilled result ->
  emissions (transformToObservable (Direct result)) = [Complete] ->
  exists f,
    adapter streamingType handler = inr f /\
    call_single f request context = Some (Rejected Rx.EmptyError).
Proof.
  intros Hkind Hres Hem.
  assert (Hv : lastValueHandler handler request context =
               Rejected Rx.EmptyError).
  { unfold lastValueHandler, Rx.lastValueFrom. by rewrite Hres, Hem. }
  destruct Hkind as [-> | ->]; eexists; (split; [reflexivity|]);
    simpl; by rewrite Hv.
Qed.

Lemma empty_result_rejected_witness :
  exists f,
    adapter PT_STREAMING
      (fun _ _ => Deferred (Fulfilled (JObservable
         (mkObservable [] [[Complete]])))) = inr f /\
    call_single f JNull JNull =
      Some (Rejected (JError "EmptyError" "no elements in sequence")).
Proof.
  apply (empty_result_rejected PT_STREAMING _ JNull JNull
           (JObservable (mkObservable [] [[Complete]]))).
  - right; reflexivity.
  - reflexivity.
  - reflexivity.
Defined.

End AdapterClaims.

(** ** The binder *)

Section BinderClaims.
Import Router.

Lemma addServicesToRouter_calls (metadataStore : gmap string DescService)
  (router : ConnectRouter) (serviceHandlers : ServiceHandlerMap) :
  addServicesToRouter metadataStore router serviceHandlers =
  router ++ omap (fun entry : string * Object RpcHandler =>
                    (fun service => (service, entry.2)) <$>
                    metadataStore !! entry.1)
                 serviceHandlers.
Proof.
  unfold addServicesToRouter. revert router.
  induction serviceHandlers as [|[serviceName impl] hs IH]; intros router.
  - simpl. by rewrite app_nil_r.
  - simpl. rewrite IH.
    destruct (metadataStore !! serviceName) as [service|]; simpl; [|done].
    by rewrite <- app_assoc.
Qed.

(** C8: the binder is a total function of the registry, the routing surface
    and the handler table (it raises nothing); what it adds to the routing
    surface is, for every service of the table whose name the registry
    knows, the sub-table of that service under the descriptor found, and
    nothing else; a service whose name the registry does not know leaves the
    routing surface as it would be without that service in the table. *)
Theorem unregistered_service_skipped (metadataStore : gmap string DescService)
  (router : ConnectRouter) (serviceHandlers : ServiceHandlerMap) :
  exists calls,
    addServicesToRouter metadataStore router serviceHandlers = router ++ calls /\
    (forall service impl,
       (service, impl) ∈ calls <->
       exists serviceName,
         (serviceName, impl) ∈ serviceHandlers /\
         metadataStore !! serviceName = Some service) /\
    (forall serviceName,
       metadataStore !! serviceName = None ->
       addServicesToRouter metadataStore router
         (List.filter (fun entry => bool_decide (entry.1 <> serviceName))
                      serviceHandlers) =
       addServicesToRouter metadataStore router serviceHandlers).
Proof.
  eexists. split; [apply addServicesToRouter_calls|]. split.
  - intros service impl. rewrite list_elem_of_omap. split.
    + intros ([serviceName impl'] & Hin & Hsome). simpl in Hsome.
      destruct (metadataStore !! serviceName) as [service'|] eqn:Hs; [|done].
      simpl in Hsome. injection Hsome as <- <-. by exists serviceName.
    + intros (serviceName & Hin & Hs).
      exists (serviceName, impl). split; [done|]. simpl. by rewrite Hs.
  - intros serviceName Hnone. rewrite !addServicesToRouter_calls. f_equal.
    induction serviceHandlers as [|[name impl] hs IH]; [done|].
    cbn [List.filter fst].
    destruct (decide (name = serviceName)) as [->|Hne].
    + rewrite bool_decide_eq_false_2 by (intros H; by apply H).
      rewrite IH. simpl. by rewrite Hnone.
    + rewrite bool_decide_eq_true_2 by done.
      change (omap ?f (?x :: ?l)) with (from_option (fun y => y :: omap f l) (omap f l) (f x)).
      by rewrite IH.
Qed.

Lemma unregistered_service_skipped_witness :
  let metadataStore : gmap string DescService :=
    {[ "KnownController" := mkDescService "test.v1.Known" ]} in
  let known : Object RpcHandler :=
    [("sayHello", UnaryHandler (fun _ _ => Pending))] in
  let unknown : Object RpcHandler :=
    [("method", UnaryHandler (fun _ _ => Pending))] in
  addServicesToRouter metadataStore []
    [("UnknownService", unknown); ("KnownController", known)] =
  [(mkDescService "test.v1.Known", known)] /\
  addServicesToRouter metadataStore []
    (List.filter (fun entry => bool_decide (entry.1 <> "UnknownService"))
       [("UnknownService", unknown); ("KnownController", known)]) =
  addServicesToRouter metadataStore []
    [("UnknownService", unknown); ("KnownController", known)].
Proof.
  intros metadataStore known unknown. split; [reflexivity|].
  destruct (unregistered_service_skipped metadataStore []
              [("UnknownService", unknown); ("KnownController", known)])
    as (calls & _ & _ & Hskip).
  apply (Hskip "UnknownService"). reflexivity.
Defined.

Lemma obj_get_set {A} name (a : A) o : obj_get name (obj_set name a o) = Some a.
Proof.
  induction o as [|[k b] o IH]; simpl.
  - by rewrite decide_True.
  - destruct (decide (k = name)) as [->|Hne]; simpl.
    + by rewrite decide_True.
    + by rewrite decide_False.
Qed.

Lemma obj_get_set_in {A} name inner (a : A) o sub :
  obj_get name o = Some sub ->
  obj_get name (obj_set_in name inner a o) = Some (obj_set inner a sub).
Proof.
  induction o as [|[k b] o IH]; simpl; [done|].
  destruct (decide (k = name)) as [->|Hne]; simpl.
  - intros [= ->]. by rewrite decide_True.
  - intros Hsub. rewrite decide_False by done. by apply IH.
Qed.

(** A registered handler is found in the table under its service and its
    method, wrapped in the adapter of its streaming type. *)
Lemma register_sets serviceHandlers pattern handler f :
  adapter (streaming pattern) handler = inr f ->
  exists serviceHandlers' impl,
    register serviceHandlers (PatternKey pattern, Some handler) = inr serviceHandlers' /\
    obj_get (service pattern) serviceHandlers' = Some impl /\
    obj_get (rpc pattern) impl = Some f.
Proof.
  intros Hf. unfold register. rewrite Hf.
  destruct (obj_get (service pattern) serviceHandlers) as [sub|] eqn:Hsub.
  - eexists _, _. split; [done|]. split.
    + by apply obj_get_set_in.
    + apply obj_get_set.
  - eexists _, _. split; [done|]. split.
    + apply obj_get_set_in, obj_get_set.
    + apply obj_get_set.
Qed.

Section Examples.
Variable handler1 handler2 : MessageHandler.

(** Two methods of one service end up in one sub-table under the one
    service name. *)
Example two_methods_one_service :
  createServiceHandlers
    [(PatternKey (mkPattern "method1" "TestService" NO_STREAMING), Some handler1);
     (PatternKey (mkPattern "method2" "TestService" RX_STREAMING), Some handler2)] =
  inr [("TestService",
        [("method1", UnaryHandler (lastValueHandler handler1));
         ("method2", ServerStreamHandler (streamingHandler handler2))])].
Proof. reflexivity. Qed.

(** An entry whose handler is [null] leaves no trace. *)
Example null_handler_skipped :
  createServiceHandlers
    [(PatternKey (mkPattern "nullMethod" "TestService" NO_STREAMING), None)] = inr [].
Proof. reflexivity. Qed.

(** A key that is not JSON stops the registration, also when its handler
    is [null]. *)
Example string_key_rejected syntaxError :
  createServiceHandlers [(NotJson syntaxError, None)] = inl syntaxError.
Proof. reflexivity. Qed.

(** An unknown streaming type stops the registration. *)
Example invalid_streaming_type :
  createServiceHandlers
    [(PatternKey (mkPattern "method1" "TestService" "sideways"), Some handler1)] =
  inl (JError "Error" "Invalid streaming type: sideways").
Proof. reflexivity. Qed.

End Examples.

End BinderClaims.

(** * Further properties *)

(** ** The bridge under every source and every schedule *)

Section BridgeSafety.
Import Bridge Due Safety.

Lemma nexts_app evs1 evs2 : nexts (evs1 ++ evs2) = nexts evs1 ++ nexts evs2.
Proof. unfold nexts. apply flat_map_app. Qed.

Lemma closing_nil : closing [].
Proof. exists 0. by left. Qed.

Lemma closing_snoc cl : closing cl -> closing (cl ++ [Done]).
Proof.
  intros [k [-> | [e ->]]]; exists (S k).
  - left. by rewrite replicate_S_end.
  - right. exists e. by rewrite replicate_S_end.
Qed.

Lemma loop_shape x0 :
  resolve x0 = NoHandle ->
  match loop x0 with
  | (SYield item, x) =>
      resolve x = NoHandle /\ defined (queue x0) = item :: defined (queue x)
  | (SAwait, x) =>
      resolve x = Armed /\ queue x = [] /\ error x = JNull /\
      completed x = false /\ defined (queue x0) = []
  | (SReturn, _) => False
  | _ => True
  end.
Proof.
  intros Hres. unfold loop.
  destruct (shift_defined (queue x0)) as [[item q']|] eqn:Hq.
  - split; [done|]. by apply shift_defined_some.
  - apply shift_defined_none in Hq.
    destruct (is_not_null (error x0)) eqn:He; [done|].
    destruct (completed x0) eqn:Hc; [done|].
    repeat split; try done. by apply is_not_null_false.
Qed.

Lemma emit_fifo E st : fifo E st -> fifo E (emit st).
Proof.
  intros (ys & cl & Hlog & Hcl & Hpre & Hlive).
  exists ys, cl. rewrite emit_log, emit_gen. repeat split; try done.
  - by apply Hlive.
  - destruct (Hlive H) as [_ <-]. unfold emit.
    destruct (script st) as [|b rest] eqn:Hs; [by rewrite Hs|]. simpl.
    rewrite deliver_queue, nexts_app, !defined_app.
    by rewrite <- !app_assoc.
Qed.

(** What [serve] owes: the state is steady, the answers stay first in,
    first out, and every request is answered or waits. *)
Lemma safe_after_loop E r rest st :
  (forall st', ready st' -> fifo E st' -> gen st' <> AwaitingWake ->
     steady (serve rest st') /\ fifo E (serve rest st') /\
     length (log (serve rest st')) + length (requests (serve rest st')) =
       length (log st') + length rest) ->
  gen st <> Completed -> resolve (vars st) = NoHandle -> fifo E st ->
  let st1 :=
    match loop (vars st) with
    | (SYield item, x) =>
        serve rest (answer (Yielded item) (set_gen SuspendedYield (set_vars x st)))
    | (SThrow e, x) =>
        serve rest (answer (Thrown e) (finally Errored (set_vars x st)))
    | (SBreak, x) =>
        serve rest (answer Done (finally Exhausted (set_vars x st)))
    | (SReturn, x) =>
        serve rest (answer Done (finally Abandoned (set_vars x st)))
    | (SAwait, x) =>
        set_requests (r :: rest) (set_gen AwaitingWake (set_vars x st))
    end in
  steady st1 /\ fifo E st1 /\
  length (log st1) + length (requests st1) = length (log st) + length (r :: rest).
Proof.
  intros IH Hg Hres (ys & cl & Hlog & Hcl & Hpre & Hlive).
  destruct (Hlive Hg) as [-> HE]. rewrite app_nil_r in Hlog.
  pose proof (loop_shape (vars st) Hres) as Hloop.
  destruct (loop (vars st)) as [[item| e | | |] x]; cbv zeta.
  - destruct Hloop as [Hr Hq].
    set (st2 := answer _ _).
    destruct (IH st2) as (Hst & Hfifo & Hlen); [done| |done|].
    { exists (ys ++ [item]), []. simpl. rewrite Hlog, map_app, app_nil_r.
      rewrite Hq in HE.
      repeat split; [apply closing_nil| |by rewrite <- app_assoc].
      exists (defined (queue x) ++ defined (nexts (concat (script st)))).
      by rewrite <- HE, <- app_assoc. }
    repeat split; try done. rewrite Hlen. simpl. rewrite length_app. simpl. lia.
  - set (st2 := answer _ _).
    destruct (IH st2) as (Hst & Hfifo & Hlen); [done| |done|].
    { exists ys, [Thrown e]. simpl. rewrite Hlog.
      repeat split; try done. exists 0. right. by exists e. }
    repeat split; try done. rewrite Hlen. simpl. rewrite length_app. simpl. lia.
  - set (st2 := answer _ _).
    destruct (IH st2) as (Hst & Hfifo & Hlen); [done| |done|].
    { exists ys, [Done]. simpl. rewrite Hlog.
      repeat split; try done. exists 1. by left. }
    repeat split; try done. rewrite Hlen. simpl. rewrite length_app. simpl. lia.
  - done.
  - destruct Hloop as (Hr & Hq & He & Hc & Hd).
    split; [by repeat split|]. split; [|simpl; lia].
    exists ys, []. simpl. rewrite Hlog, app_nil_r.
    repeat split; [apply closing_nil|done|].
    by rewrite Hq, <- HE, Hd.
Qed.

Lemma serve_safe E rs st :
  ready st -> fifo E st -> (gen st = AwaitingWake -> rs <> []) ->
  steady (serve rs st) /\ fifo E (serve rs st) /\
  length (log (serve rs st)) + length (requests (serve rs st)) =
    length (log st) + length rs.
Proof.
  revert st. induction rs as [|r rest IH]; intros st Hready Hfifo Hne.
  - unfold ready in Hready. unfold steady. simpl.
    split; [|split; [done|lia]].
    destruct (gen st); try done. by destruct Hne.
  - assert (IH' : forall st', ready st' -> fifo E st' ->
              gen st' <> AwaitingWake ->
              steady (serve rest st') /\ fifo E (serve rest st') /\
              length (log (serve rest st')) +
                length (requests (serve rest st')) =
              length (log st') + length rest).
    { intros st' ? ? ?. by apply IH. }
    assert (Hend : forall st2 : State,
              gen st2 = Completed ->
              (exists ys cl, log st2 = map Yielded ys ++ cl ++ [Done] /\
                             closing cl /\ ys `prefix_of` E) ->
              length (log st2) = S (length (log st)) ->
              steady (serve rest st2) /\ fifo E (serve rest st2) /\
              length (log (serve rest st2)) +
                length (requests (serve rest st2)) =
              length (log st) + length (r :: rest)).
    { intros st2 Hg2 (ys & cl & Hl2 & Hcl & Hpre) Hlen2.
      destruct (IH' st2) as (Hst & Hf & Hlen).
      - unfold ready. by rewrite Hg2.
      - exists ys, (cl ++ [Done]).
        repeat split; [done|by apply closing_snoc|done|done|done].
      - by rewrite Hg2.
      - repeat split; try done. rewrite Hlen, Hlen2. simpl. lia. }
    unfold ready in Hready.
    destruct (gen st) eqn:Hg.
    + destruct r.
      * rewrite (serve_resumed _ _ _ (subscribe st) (vars (subscribe st))).
        2:{ unfold resume. by rewrite Hg. }
        replace (log st) with (log (subscribe st)) by apply emit_log.
        apply safe_after_loop; try done.
        -- unfold subscribe. by rewrite emit_gen, Hg.
        -- unfold subscribe, emit. destruct (script st) eqn:Hs; simpl.
           ++ by rewrite Hready.
           ++ apply deliver_no_handle. by rewrite Hready.
        -- by apply emit_fifo.
      * assert (Hs : serve (ReqReturn :: rest) st =
                     serve rest (answer Done (set_gen Completed st))).
        { simpl. unfold resume. by rewrite Hg. }
        rewrite Hs. apply Hend; [done| |simpl; rewrite length_app; simpl; lia].
        destruct Hfifo as (ys & cl & Hlog & Hcl & Hpre & Hlive).
        exists ys, cl. simpl. by rewrite Hlog, <- app_assoc.
    + destruct r.
      * rewrite (serve_resumed _ _ _ st (vars st)).
        2:{ unfold resume. by rewrite Hg. }
        apply safe_after_loop; try done. by rewrite Hg.
      * assert (Hs : serve (ReqReturn :: rest) st =
                     serve rest (answer Done (finally Abandoned st))).
        { simpl. unfold resume. by rewrite Hg. }
        rewrite Hs. apply Hend; [done| |simpl; rewrite length_app; simpl; lia].
        destruct Hfifo as (ys & cl & Hlog & Hcl & Hpre & Hlive).
        exists ys, cl. simpl. by rewrite Hlog, <- app_assoc.
    + destruct Hready as [Hfired|(Harmed & Hq & He & Hc)].
      * set (x0 := {| queue := queue (vars st); error := error (vars st);
                      completed := completed (vars st); resolve := NoHandle |}).
        rewrite (serve_resumed _ _ _ st x0).
        2:{ unfold resume. rewrite Hg, Hfired. by destruct r. }
        change (log st) with (log (set_vars x0 st)).
        apply (safe_after_loop E r rest (set_vars x0 st)); try done.
        simpl. by rewrite Hg.
      * assert (Hs : serve (r :: rest) st = set_requests (r :: rest) st).
        { simpl. unfold resume. rewrite Hg, Harmed. by destruct r. }
        rewrite Hs. split; [|split; [|simpl; lia]].
        -- unfold steady. simpl. by rewrite Hg.
        -- destruct Hfifo as (ys & cl & Hlog & Hcl & Hpre & Hlive).
           by exists ys, cl.
    + assert (Hs : serve (r :: rest) st =
                   serve rest (answer Done (set_gen Completed st))).
      { simpl. unfold resume. rewrite Hg. by destruct r. }
      rewrite Hs. apply Hend; [done| |simpl; rewrite length_app; simpl; lia].
      destruct Hfifo as (ys & cl & Hlog & Hcl & Hpre & Hlive).
      exists ys, cl. simpl. by rewrite Hlog, <- app_assoc.
Qed.

Lemma requests_made_cons a sched :
  requests_made (a :: sched) =
  (match a with Window => 0 | _ => 1 end) + requests_made sched.
Proof. unfold requests_made. by destruct a. Qed.

Lemma steady_ready st : steady st -> ready st.
Proof.
  unfold steady, ready. destruct (gen st); tauto.
Qed.

Lemma step_safe E st a :
  steady st -> fifo E st ->
  steady (step st a) /\ fifo E (step st a) /\
  length (log (step st a)) + length (requests (step st a)) =
    length (log st) + length (requests st) +
    match a with Window => 0 | _ => 1 end.
Proof.
  intros Hst Hfifo.
  assert (Hreq : forall r,
    steady (request r st) /\ fifo E (request r st) /\
    length (log (request r st)) + length (requests (request r st)) =
      length (log st) + length (requests st) + 1).
  { intros r. unfold request.
    destruct (serve_safe E (requests st ++ [r]) st) as (H1 & H2 & H3).
    - by apply steady_ready.
    - done.
    - intros _. by destruct (requests st).
    - rewrite length_app in H3. simpl in H3. split; [done|]. split; [done|lia]. }
  destruct a; simpl; [apply Hreq|apply Hreq|].
  unfold window, steady in *.
  destruct (gen st) eqn:Hg.
  - rewrite Hg. repeat split; try tauto. lia.
  - split; [|split].
    + rewrite emit_gen, Hg, emit_requests. split; [|tauto].
      unfold emit. destruct (script st); [tauto|]. simpl.
      apply deliver_no_handle. tauto.
    + by apply emit_fifo.
    + rewrite emit_log, emit_requests. lia.
  - destruct Hst as (Harmed & Hq & He & Hc & Hne).
    destruct (serve_safe E (requests (emit st)) (emit st)) as (H1 & H2 & H3).
    + unfold ready. rewrite emit_gen, Hg.
      unfold emit. destruct (script st) as [|b rest] eqn:Hs.
      { by right. }
      simpl. rewrite (deliver_armed b (vars st) Harmed).
      destruct b; [|by left]. by right.
    + by apply emit_fifo.
    + intros _. by rewrite emit_requests.
    + assert (Hl : length (log (emit st)) = length (log st))
        by (by rewrite emit_log).
      assert (Hr : length (requests (emit st)) = length (requests st))
        by (by rewrite emit_requests).
      split; [exact H1|]. split; [exact H2|lia].
  - rewrite Hg. repeat split; try tauto. lia.
Qed.

Lemma run_safe E sched st :
  steady st -> fifo E st ->
  steady (run sched st) /\ fifo E (run sched st) /\
  length (log (run sched st)) + length (requests (run sched st)) =
    length (log st) + length (requests st) + requests_made sched.
Proof.
  revert st. induction sched as [|a sched IH]; intros st Hst Hfifo.
  - change (run [] st) with st. change (requests_made []) with 0.
    split; [done|]. split; [done|lia].
  - destruct (step_safe E st a Hst Hfifo) as (H1 & H2 & H3).
    destruct (IH (step st a) H1 H2) as (H4 & H5 & H6).
    change (run (a :: sched) st) with (run sched (step st a)).
    rewrite requests_made_cons. split; [done|]. split; [done|lia].
Qed.

Lemma safe_initial obs :
  steady (observableToAsyncGenerator obs) /\
  fifo (defined (nexts (emissions obs))) (observableToAsyncGenerator obs).
Proof.
  split; [done|]. exists [], []. simpl.
  repeat split; [apply closing_nil|apply prefix_nil].
Qed.

(** X1: whatever the source sends, in whatever batches, and whatever the
    consumer does, the answers are values from the front of what the source
    emitted (those that are not [undefined]), in the order emitted and each
    once, followed by nothing or by the end: at most one raised failure,
    and [{ done: true }] ever after. *)
Theorem answers_first_in_first_out obs sched :
  exists ys cl,
    Bridge.pulled obs sched = map Yielded ys ++ cl /\
    ys `prefix_of` defined (nexts (emissions obs)) /\
    (exists k, cl = replicate k Done \/
               exists e, cl = Thrown e :: replicate k Done).
Proof.
  destruct (safe_initial obs) as [Hst Hfifo].
  destruct (run_safe _ sched _ Hst Hfifo)
    as (_ & (ys & cl & Hlog & Hcl & Hpre & _) & _).
  by exists ys, cl.
Qed.

(** X2: a call of [next()] or [return()] is left waiting only while the
    loop stands at its [await] with nothing to hand out: the queue is empty,
    no error and no completion is recorded, and a wake handle is armed. *)
Theorem requests_wait_only_for_the_source obs sched :
  let st := run sched (observableToAsyncGenerator obs) in
  requests st <> [] ->
  gen st = AwaitingWake /\ resolve (vars st) = Armed /\
  queue (vars st) = [] /\ error (vars st) = JNull /\
  completed (vars st) = false.
Proof.
  intros st Hreq.
  destruct (safe_initial obs) as [Hst Hfifo].
  destruct (run_safe _ sched _ Hst Hfifo) as (Hsteady & _ & _).
  fold st in Hsteady. unfold steady in Hsteady.
  destruct (gen st); try tauto.
Qed.

Lemma requests_wait_only_for_the_source_witness :
  let st := run [Pull; Pull; Window; Pull; Return]
              (observableToAsyncGenerator
                 (mkObservable [Next (JStr "1")] [[Next JUndefined]])) in
  gen st = AwaitingWake /\ resolve (vars st) = Armed /\
  queue (vars st) = [] /\ error (vars st) = JNull /\
  completed (vars st) = false.
Proof.
  apply (requests_wait_only_for_the_source
           (mkObservable [Next (JStr "1")] [[Next JUndefined]])
           [Pull; Pull; Window; Pull; Return]).
  discriminate.
Defined.

(** X4: for a source that keeps the Observable contract and a consumer
    that only pulls, the answers depend on nothing but what the source
    emitted and how often the consumer pulled: how the emissions were
    batched and how pulls and batches interleaved makes no difference. *)
Theorem answers_independent_of_timing obs1 obs2 sched1 sched2 :
  well_formed (emissions obs1) ->
  emissions obs1 = emissions obs2 ->
  count_pulls sched1 = count_pulls sched2 ->
  no_return sched1 = true -> no_return sched2 = true ->
  all_sent (run sched1 (observableToAsyncGenerator obs1)) ->
  all_sent (run sched2 (observableToAsyncGenerator obs2)) ->
  Bridge.pulled obs1 sched1 = Bridge.pulled obs2 sched2.
Proof.
  intros Hwf Hem Hn Hnr1 Hnr2 Hs1 Hs2.
  destruct (pulled_spec obs1 sched1) as (-> & _ & _); [done..|].
  destruct (pulled_spec obs2 sched2) as (-> & _ & _); [by rewrite <- Hem|done..|].
  by rewrite Hem, Hn.
Qed.

Lemma answers_independent_of_timing_witness :
  Bridge.pulled
    (mkObservable [Next (JStr "1"); Next (JStr "2"); Error (JStr "late")] [])
    [Pull; Pull; Pull] =
  Bridge.pulled
    (mkObservable [] [[Next (JStr "1")]; [Next (JStr "2")]; [Error (JStr "late")]])
    [Pull; Window; Window; Pull; Pull; Window].
Proof.
  apply answers_independent_of_timing; reflexivity.
Defined.

End BridgeSafety.

(** ** Cleanup *)

Section Cleanup.
Import Bridge Due Safety.












End Cleanup.

(** ** Normalizing and passing through *)

Section AdapterSafety.
Import Bridge Due Async Router.

Lemma last_of_normalized resultOrDeferred :
  (forall o, resultOrDeferred <> Direct (JObservable o)) ->
  Rx.lastValueFrom (transformToObservable resultOrDeferred) =
  await resultOrDeferred.
Proof.
  intros Hno.
  destruct resultOrDeferred as [value|[value|reason|]]; try done.
  destruct value; try done. by destruct (Hno o).
Qed.

(** X5: for a result that is not an Observable, normalizing it to a stream
    and taking the last value of that stream is the same as awaiting it: a
    value at hand resolves to itself, a Promise settles the call the way it
    settles itself (a rejection without any emission), and a Promise that
    never settles leaves the call pending. *)
Theorem normalize_then_last_is_await resultOrDeferred :
  (forall o, resultOrDeferred <> Direct (JObservable o)) ->
  Rx.lastValueFrom (transformToObservable resultOrDeferred) =
  await resultOrDeferred.
Proof.
  intros Hno.
  destruct resultOrDeferred as [value|[value|reason|]].
  - destruct value; try reflexivity. by destruct (Hno o).
  - reflexivity.
  - reflexivity.
  - reflexivity.
Qed.

Lemma normalize_then_last_is_await_witness :
  Rx.lastValueFrom
    (transformToObservable (Deferred (Rejected (JStr "fail")))) =
  Rejected (JStr "fail").
Proof.
  apply (normalize_then_last_is_await (Deferred (Rejected (JStr "fail")))).
  intros o. discriminate.
Defined.

(** X6: for the Unary and ClientStream adapters, a handler result that is
    not (a Promise of) an Observable settles the call as awaiting it does:
    a value, at hand or promised, is the response as it is, and a rejected
    Promise fails the call with its reason. *)
Theorem single_adapter_awaits streamingType handler request context :
  streamingType = NO_STREAMING \/ streamingType = PT_STREAMING ->
  (forall o, await (handler request context) <> Fulfilled (JObservable o)) ->
  exists f,
    adapter streamingType handler = inr f /\
    call_single f request context = Some (await (handler request context)).
Proof.
  intros Hkind Hno.
  assert (Hv : lastValueHandler handler request context =
               await (handler request context)).
  { unfold lastValueHandler.
    destruct (await (handler request context)) as [value|reason|]; try done.
    rewrite last_of_normalized; [done|].
    intros o [= ->]. by destruct (Hno o). }
  destruct Hkind as [-> | ->]; eexists; (split; [reflexivity|]);
    simpl; by rewrite Hv.
Qed.

Lemma single_adapter_awaits_witness :
  exists f,
    adapter NO_STREAMING
      (fun _ _ => Deferred (Fulfilled (JObject [("data", JStr "x")]))) = inr f /\
    call_single f JNull JNull = Some (Fulfilled (JObject [("data", JStr "x")])).
Proof.
  apply (single_adapter_awaits NO_STREAMING
           (fun _ _ => Deferred (Fulfilled (JObject [("data", JStr "x")])))
           JNull JNull).
  - left; reflexivity.
  - intros o. discriminate.
Defined.

Lemma last_value_error vs e rest acc :
  Rx.last_value (map Next vs ++ Error e :: rest) acc = Rejected e.
Proof.
  revert acc. induction vs as [|w vs IH]; intros acc; [done|]. apply IH.
Qed.

Lemma last_value_endless vs acc : Rx.last_value (map Next vs) acc = Pending.
Proof.
  revert acc. induction vs as [|w vs IH]; intros acc; [done|]. apply IH.
Qed.

(** X7: for the Unary and ClientStream adapters, when the stream the
    handler's result is normalized to signals an error, the call fails with
    the cause as the producer raised it, be it an [Error], anything else or
    [null]; nothing is wrapped, and the values emitted before are dropped. *)
Theorem single_adapter_fails_verbatim
  streamingType handler request context result vs e rest :
  streamingType = NO_STREAMING \/ streamingType = PT_STREAMING ->
  await (handler request context) = Fulfilled result ->
  emissions (transformToObservable (Direct result)) =
    map Next vs ++ Error e :: rest ->
  exists f,
    adapter streamingType handler = inr f /\
    call_single f request context = Some (Rejected e).
Proof.
  intros Hkind Hres Hem.
  assert (Hv : lastValueHandler handler request context = Rejected e).
  { unfold lastValueHandler, Rx.lastValueFrom. rewrite Hres, Hem.
    apply last_value_error. }
  destruct Hkind as [-> | ->]; eexists; (split; [reflexivity|]);
    simpl; by rewrite Hv.
Qed.

Lemma single_adapter_fails_verbatim_witness :
  exists f,
    adapter PT_STREAMING
      (fun _ _ => Direct (JObservable
         (mkObservable [Next (JStr "1")] [[Error JNull]]))) = inr f /\
    call_single f JNull JNull = Some (Rejected JNull).
Proof.
  apply (single_adapter_fails_verbatim PT_STREAMING _ JNull JNull
           (JObservable (mkObservable [Next (JStr "1")] [[Error JNull]]))
           [JStr "1"] JNull []).
  - right; reflexivity.
  - reflexivity.
  - reflexivity.
Defined.

(** X8: for the Unary and ClientStream adapters, when the stream the
    handler's result is normalized to emits values and neither completes
    nor fails, the call never settles. *)
Theorem single_adapter_pending
  streamingType handler request context result vs :
  streamingType = NO_STREAMING \/ streamingType = PT_STREAMING ->
  await (handler request context) = Fulfilled result ->
  emissions (transformToObservable (Direct result)) = map Next vs ->
  exists f,
    adapter streamingType handler = inr f /\
    call_single f request context = Some Pending.
Proof.
  intros Hkind Hres Hem.
  assert (Hv : lastValueHandler handler request context = Pending).
  { unfold lastValueHandler, Rx.lastValueFrom. rewrite Hres, Hem.
    apply last_value_endless. }
  destruct Hkind as [-> | ->]; eexists; (split; [reflexivity|]);
    simpl; by rewrite Hv.
Qed.

Lemma single_adapter_pending_witness :
  exists f,
    adapter NO_STREAMING
      (fun _ _ => Direct (JObservable
         (mkObservable [Next (JStr "1")] [[Next (JStr "2")]]))) = inr f /\
    call_single f JNull JNull = Some Pending.
Proof.
  apply (single_adapter_pending NO_STREAMING _ JNull JNull
           (JObservable (mkObservable [Next (JStr "1")] [[Next (JStr "2")]]))
           [JStr "1"; JStr "2"]).
  - left; reflexivity.
  - reflexivity.
  - reflexivity.
Defined.

Lemma play_ended sched :
  no_return sched = true ->
  play [] sched = replicate (count_pulls sched) Done.
Proof.
  induction sched as [|a sched IH]; intros Hnr; [done|].
  apply no_return_cons in Hnr as [Ha Hnr].
  destruct a; [|done|]; simpl; rewrite (IH Hnr); by rewrite ?count_pulls_cons.
Qed.

Lemma play_values vs tail sched :
  no_return sched = true ->
  tail = [] \/ (exists e, tail = [Thrown e]) ->
  play (map Yielded vs ++ tail) sched =
  take (count_pulls sched)
       (map Yielded vs ++ tail ++ replicate (count_pulls sched) Done).
Proof.
  intros Hnr Htail. revert vs.
  induction sched as [|a sched IH]; intros vs; [done|].
  apply no_return_cons in Hnr as [Ha Hnr].
  destruct a; [|done|].
  - rewrite count_pulls_cons. cbn [pulls_of Nat.add].
    set (n := count_pulls sched) in *.
    destruct vs as [|v vs].
    + destruct Htail as [-> | [e ->]].
      * cbn [map app play]. rewrite (play_ended _ Hnr).
        cbn [replicate take]. by rewrite take_replicate, Nat.min_id.
      * cbn [map app play]. rewrite (play_ended _ Hnr).
        cbn [replicate take]. f_equal.
        change (Done :: replicate n Done) with (replicate (S n) Done).
        rewrite take_replicate. f_equal. lia.
    + cbn [map app play]. rewrite (IH Hnr). cbn [take]. f_equal.
      fold n. rewrite !take_app, !take_replicate.
      do 3 f_equal. lia.
  - rewrite count_pulls_cons. cbn [pulls_of Nat.add]. apply (IH Hnr).
Qed.

(** X9: [toAsyncGenerator] hands an AsyncGenerator through as it is: a
    consumer that only pulls gets every value the generator yields, in
    order and [undefined] included, then the failure the generator raises,
    if it raises one, as it is, and [{ done: true }] from then on. *)
Theorem generator_passed_through g sched :
  no_return sched = true ->
  Async.pulled (toAsyncGenerator (JAsyncGenerator g)) sched =
  take (count_pulls sched)
       (map Yielded (yields g) ++
        match failure g with Some e => [Thrown e] | None => [] end ++
        replicate (count_pulls sched) Done).
Proof.
  intros Hnr. simpl. unfold program. apply play_values; [done|].
  destruct (failure g) as [e|]; [right; by exists e|by left].
Qed.

Lemma generator_passed_through_witness :
  Async.pulled
    (toAsyncGenerator
       (JAsyncGenerator
          (mkAsyncGenerator [JStr "a"; JUndefined; JStr "b"] (Some (JStr "oops")))))
    [Pull; Pull; Window; Pull; Pull; Pull] =
  [Yielded (JStr "a"); Yielded JUndefined; Yielded (JStr "b");
   Thrown (JStr "oops"); Done].
Proof.
  apply (generator_passed_through
           (mkAsyncGenerator [JStr "a"; JUndefined; JStr "b"] (Some (JStr "oops")))
           [Pull; Pull; Window; Pull; Pull; Pull]).
  reflexivity.
Defined.

(** X10: for the ServerStream and BidiStream adapters, when the handler's
    deferred result is rejected, the first pull raises the reason as it is
    (nothing is wrapped, no stream is subscribed to), and every later pull
    is answered [{ done: true }]. *)
Theorem streaming_adapter_rejected streamingType handler request context e :
  streamingType = RX_STREAMING \/ streamingType = DUPLEX_STREAMING ->
  await (handler request context) = Rejected e ->
  exists f p,
    adapter streamingType handler = inr f /\
    call_streaming f request context = Some p /\
    forall sched,
      no_return sched = true ->
      Async.pulled p sched =
      take (count_pulls sched) (Thrown e :: replicate (count_pulls sched) Done).
Proof.
  intros Hkind Hrej.
  assert (Hp : streamingHandler handler request context = Failing e).
  { unfold streamingHandler. by rewrite Hrej. }
  assert (Hplay : forall sched, no_return sched = true ->
            Async.pulled (Failing e) sched =
            take (count_pulls sched)
                 (Thrown e :: replicate (count_pulls sched) Done)).
  { intros sched Hnr. simpl.
    apply (play_values [] [Thrown e] sched Hnr). right. by exists e. }
  destruct Hkind as [-> | ->]; eexists; eexists;
    (split; [reflexivity|]); (split; [reflexivity|]); by rewrite Hp.
Qed.

Lemma streaming_adapter_rejected_witness :
  exists f p,
    adapter RX_STREAMING (fun _ _ => Deferred (Rejected (JStr "fail"))) = inr f /\
    call_streaming f JNull JNull = Some p /\
    Async.pulled p [Pull; Pull] = [Thrown (JStr "fail"); Done].
Proof.
  destruct (streaming_adapter_rejected RX_STREAMING
              (fun _ _ => Deferred (Rejected (JStr "fail"))) JNull JNull
              (JStr "fail") (or_introl eq_refl) eq_refl)
    as (f & p & Hf & Hp & Hpull).
  exists f, p. split; [exact Hf|]. split; [exact Hp|].
  apply (Hpull [Pull; Pull]). reflexivity.
Defined.

End AdapterSafety.

(** ** The handler table *)

Section TableSafety.
Import Async Router Table.

Lemma obj_get_set_ne {A} name name' (a : A) o :
  name <> name' -> obj_get name' (obj_set name a o) = obj_get name' o.
Proof.
  intros Hne. induction o as [|[k b] o IH]; simpl.
  - by rewrite decide_False.
  - destruct (decide (k = name)) as [->|Hk]; simpl.
    + by rewrite !decide_False.
    + destruct (decide (k = name')); [done|apply IH].
Qed.

Lemma obj_get_set_in_ne {A} name name' inner (a : A) o :
  name <> name' ->
  obj_get name' (obj_set_in name inner a o) = obj_get name' o.
Proof.
  intros Hne. induction o as [|[k b] o IH]; simpl; [done|].
  destruct (decide (k = name)) as [->|Hk]; simpl.
  - by rewrite !decide_False.
  - destruct (decide (k = name')); [done|apply IH].
Qed.

Lemma obj_get_elem {A} name (a : A) o :
  obj_get name o = Some a -> (name, a) ∈ o.
Proof.
  induction o as [|[k b] o IH]; simpl; [done|].
  destruct (decide (k = name)) as [->|Hk].
  - intros [= ->]. apply elem_of_cons. by left.
  - intros H. apply elem_of_cons. right. by apply IH.
Qed.

Lemma obj_get_keys {A} name (o : Object A) :
  is_Some (obj_get name o) <-> name ∈ obj_keys o.
Proof.
  unfold obj_keys. induction o as [|[k b] o IH]; simpl.
  - split; [by intros [? ?]|by intros ?%elem_of_nil].
  - destruct (decide (k = name)) as [->|Hk].
    + split; [intros _; apply elem_of_cons; by left|by eexists].
    + rewrite IH, elem_of_cons. split; [by right|]. by intros [->|?].
Qed.

Lemma obj_keys_set {A} name (a : A) o :
  obj_keys (obj_set name a o) =
  if decide (name ∈ obj_keys o) then obj_keys o else obj_keys o ++ [name].
Proof.
  unfold obj_keys. induction o as [|[k b] o IH].
  - simpl. destruct (decide (name ∈ [])) as [H|H]; [by apply elem_of_nil in H|done].
  - cbn [obj_set]. destruct (decide (k = name)) as [->|Hk].
    + rewrite decide_True; [done|]. apply elem_of_cons. by left.
    + cbn [fmap list_fmap fst]. fold (fmap (M:=list) (@fst string A)).
      rewrite IH. destruct (decide (name ∈ o.*1)) as [Hin|Hin].
      * rewrite decide_True; [done|]. apply elem_of_cons. by right.
      * rewrite decide_False; [done|].
        intros [?|?]%elem_of_cons; congruence.
Qed.

Lemma obj_keys_set_in {A} name inner (a : A) o :
  obj_keys (obj_set_in name inner a o) = obj_keys o.
Proof.
  unfold obj_keys. induction o as [|[k b] o IH]; simpl; [done|].
  destruct (decide (k = name)); simpl; [done|]. f_equal. apply IH.
Qed.

Lemma obj_set_NoDup {A} name (a : A) o :
  NoDup (obj_keys o) -> NoDup (obj_keys (obj_set name a o)).
Proof.
  intros Hnd. rewrite obj_keys_set.
  destruct (decide (name ∈ obj_keys o)) as [Hin|Hin]; [done|].
  apply NoDup_app. repeat split; [done| |apply NoDup_singleton].
  intros x Hx Hx'. apply list_elem_of_singleton in Hx' as ->. done.
Qed.

Lemma obj_set_nonempty {A} name (a : A) o : obj_set name a o <> [].
Proof. destruct o as [|[k b] o]; simpl; [done|]. by destruct (decide (k = name)). Qed.

Lemma adapter_known streamingType handler :
  known_streaming streamingType = true ->
  exists f, adapter streamingType handler = inr f.
Proof.
  unfold known_streaming, adapter. intros Hk.
  repeat (destruct (decide _) as [?|?]; [by eexists|]).
  rewrite !bool_decide_eq_false_2 in Hk by done. done.
Qed.

Lemma adapter_unknown streamingType handler :
  known_streaming streamingType = false ->
  adapter streamingType handler =
  inl (new_Error ("Invalid streaming type: " +:+ streamingType)).
Proof.
  unfold known_streaming, adapter. intros Hk.
  apply orb_false_elim in Hk as [Hk H4]. apply orb_false_elim in Hk as [Hk H3].
  apply orb_false_elim in Hk as [H1 H2].
  apply bool_decide_eq_false in H1, H2, H3, H4.
  by rewrite !decide_False.
Qed.

Lemma adapter_inr streamingType handler f :
  adapter streamingType handler = inr f ->
  known_streaming streamingType = true.
Proof.
  intros Hf. destruct (known_streaming streamingType) eqn:Hk; [done|].
  by rewrite (adapter_unknown _ _ Hk) in Hf.
Qed.

Lemma obj_set_empty_shape s (o : ServiceHandlerMap) :
  Forall (fun entry : string * Object RpcHandler =>
            NoDup (obj_keys entry.2) /\ entry.2 <> []) o ->
  Forall (fun entry : string * Object RpcHandler =>
            NoDup (obj_keys entry.2) /\ (entry.2 <> [] \/ entry.1 = s))
         (obj_set s [] o).
Proof.
  intros Hall.
  assert (Hweak : Forall (fun entry : string * Object RpcHandler =>
            NoDup (obj_keys entry.2) /\ (entry.2 <> [] \/ entry.1 = s)) o).
  { eapply Forall_impl; [exact Hall|]. intros e [? ?]. split; [done|by left]. }
  clear Hall. induction o as [|[k b] o IH]; simpl.
  - constructor; [|constructor]. split; [constructor|by right].
  - apply Forall_cons in Hweak as [Hkb Hweak].
    destruct (decide (k = s)) as [->|Hk].
    + constructor; [|done]. split; [constructor|by right].
    + constructor; [done|by apply IH].
Qed.

Lemma obj_set_in_shape s r (f : RpcHandler) (o : ServiceHandlerMap) :
  NoDup (obj_keys o) ->
  Forall (fun entry : string * Object RpcHandler =>
            NoDup (obj_keys entry.2) /\ (entry.2 <> [] \/ entry.1 = s)) o ->
  Forall (fun entry : string * Object RpcHandler =>
            NoDup (obj_keys entry.2) /\ entry.2 <> [])
         (obj_set_in s r f o).
Proof.
  induction o as [|[k b] o IH]; intros Hnd Hall; simpl; [constructor|].
  apply Forall_cons in Hall as [[Hb Hne] Hall].
  unfold obj_keys in Hnd. simpl in Hnd. apply NoDup_cons in Hnd as [Hk Hnd].
  destruct (decide (k = s)) as [->|Hks].
  - constructor.
    + split; [by apply obj_set_NoDup|apply obj_set_nonempty].
    + apply Forall_forall. intros [k' b'] Hin.
      rewrite Forall_forall in Hall. destruct (Hall _ Hin) as [Hb' Hne'].
      split; [done|]. destruct Hne' as [?|Hk']; [done|]. simpl in Hk'. subst k'.
      destruct Hk. apply list_elem_of_fmap. by exists (s, b').
  - constructor; [|by apply IH].
    split; [done|]. by destruct Hne as [?|?].
Qed.

(** What one registration does to the table. *)
Lemma register_spec serviceHandlers pattern handler f :
  adapter (streaming pattern) handler = inr f ->
  exists serviceHandlers',
    register serviceHandlers (PatternKey pattern, Some handler) = inr serviceHandlers' /\
    method_of (service pattern) (rpc pattern) serviceHandlers' = Some f /\
    (forall serviceName rpcName,
       ~ (serviceName = service pattern /\ rpcName = rpc pattern) ->
       method_of serviceName rpcName serviceHandlers' =
       method_of serviceName rpcName serviceHandlers) /\
    (well_shaped serviceHandlers -> well_shaped serviceHandlers').
Proof.
  intros Hf. unfold register. rewrite Hf.
  set (s := service pattern). set (r := rpc pattern).
  set (sh1 := match obj_get s serviceHandlers with
              | Some _ => serviceHandlers
              | None => obj_set s [] serviceHandlers
              end).
  assert (Hsub : exists sub,
            obj_get s sh1 = Some sub /\
            (forall rpcName, obj_get rpcName sub =
                             method_of s rpcName serviceHandlers) /\
            (forall s', s' <> s -> obj_get s' sh1 = obj_get s' serviceHandlers)).
  { unfold sh1, method_of.
    destruct (obj_get s serviceHandlers) as [sub|] eqn:Hs.
    - exists sub. by rewrite Hs.
    - exists []. split; [apply obj_get_set|]. split; [done|].
      intros s' Hs'. by apply obj_get_set_ne. }
  destruct Hsub as (sub & Hsub & Hmeth & Hother).
  eexists. split; [reflexivity|]. split; [|split].
  - unfold method_of. rewrite (obj_get_set_in _ _ _ _ _ Hsub).
    apply obj_get_set.
  - intros serviceName rpcName Hne. unfold method_of.
    destruct (decide (serviceName = s)) as [->|Hs].
    + rewrite (obj_get_set_in _ _ _ _ _ Hsub).
      rewrite obj_get_set_ne by (intros ->; by apply Hne).
      by rewrite Hmeth.
    + rewrite obj_get_set_in_ne by done. by rewrite Hother.
  - intros [Hnd Hall]. split.
    + rewrite obj_keys_set_in. unfold sh1.
      destruct (obj_get s serviceHandlers); [done|by apply obj_set_NoDup].
    + apply obj_set_in_shape.
      * unfold sh1.
        destruct (obj_get s serviceHandlers); [done|by apply obj_set_NoDup].
      * unfold sh1. destruct (obj_get s serviceHandlers).
        -- eapply Forall_impl; [exact Hall|].
           intros e [? ?]. split; [done|by left].
        -- by apply obj_set_empty_shape.
Qed.

Lemma register_all_app acc hs1 hs2 :
  register_all acc (hs1 ++ hs2) =
  match register_all acc hs1 with
  | inl e => inl e
  | inr acc' => register_all acc' hs2
  end.
Proof.
  revert acc. induction hs1 as [|entry hs1 IH]; intros acc; [done|].
  simpl. destruct (register acc entry); [done|apply IH].
Qed.

Lemma register_inr acc pattern handler acc' :
  register acc (PatternKey pattern, Some handler) = inr acc' ->
  exists f, adapter (streaming pattern) handler = inr f.
Proof.
  unfold register. destruct (adapter (streaming pattern) handler) as [e|f];
    [done|by exists f].
Qed.

Lemma register_all_spec hs acc t :
  register_all acc hs = inr t ->
  (well_shaped acc -> well_shaped t) /\
  (forall s r, is_Some (method_of s r t) <->
               is_Some (method_of s r acc) \/ Exists (registers s r) hs) /\
  (forall s r, ~ Exists (registers s r) hs ->
               method_of s r t = method_of s r acc).
Proof.
  revert acc.
  induction hs as [|[[error|pattern] [handler|]] hs IH]; intros acc Hreg;
    [|done|done|..].
  - injection Hreg as <-. split; [done|]. split; [|done].
    intros s r. rewrite Exists_nil. tauto.
  - cbn [register_all] in Hreg.
    destruct (register acc (PatternKey pattern, Some handler)) as [e|acc'] eqn:Hone;
      [done|].
    destruct (register_inr _ _ _ _ Hone) as [f Hf].
    destruct (register_spec acc pattern handler f Hf)
      as (acc'' & Hone' & Hset & Hother & Hshape).
    rewrite Hone in Hone'. injection Hone' as <-.
    destruct (IH acc' Hreg) as (IHshape & IHdom & IHkeep).
    split; [tauto|]. split.
    + intros s r. rewrite IHdom, Exists_cons.
      destruct (decide (s = service pattern /\ r = rpc pattern)) as [[-> ->]|Hne].
      * rewrite Hset. unfold registers. split; [|by left; eexists].
        intros _. right. by left.
      * rewrite (Hother s r Hne). unfold registers at 2.
        split; [tauto|]. intros [?|[(<- & <-)|?]]; tauto.
    + intros s r Hno. rewrite (IHkeep s r).
      * apply Hother. intros [-> ->]. apply Hno. left. by unfold registers.
      * intros Hex. apply Hno. by right.
  - cbn [register_all register] in Hreg.
    destruct (IH acc Hreg) as (IHshape & IHdom & IHkeep).
    split; [done|]. split.
    + intros s r. rewrite IHdom, Exists_cons. unfold registers at 2.
      tauto.
    + intros s r Hno. apply IHkeep. intros Hex. apply Hno. by right.
Qed.

(** X11: for a handler map whose keys are text that is not JSON or the
    JSON text of a pattern, and whose entries with a handler name services
    and methods that no object inherits: [createServiceHandlers] throws
    exactly when some key is not JSON, whatever its handler, or some entry
    that has a handler carries a streaming type that is none of the four.
    It throws what the first such entry is due: the error of [JSON.parse],
    or an [Error] that names the streaming type.  Otherwise it returns a
    table. *)
Theorem registration_fails_on_first_failure handlers :
  ordinary_names handlers = true ->
  match first_failure handlers with
  | Some e => createServiceHandlers handlers = inl e
  | None => exists serviceHandlers,
      createServiceHandlers handlers = inr serviceHandlers
  end.
Proof.
  intros _.
  unfold createServiceHandlers. generalize (@nil (string * Object RpcHandler)).
  induction handlers as [|[[error|pattern] [handler|]] hs IH]; intros acc;
    simpl; [by exists acc|done|done|..].
  - destruct (known_streaming (streaming pattern)) eqn:Hk.
    + destruct (adapter_known _ handler Hk) as [f Hf].
      destruct (register_spec acc pattern handler f Hf) as (acc' & Hone & _).
      unfold register in Hone. rewrite Hone. apply IH.
    + by rewrite (adapter_unknown _ handler Hk).
  - apply IH.
Qed.

Lemma registration_fails_on_first_failure_witness :
  let h : MessageHandler := fun _ _ => Direct JNull in
  let syntaxError := JError "SyntaxError" "Unexpected token" in
  createServiceHandlers
    [(PatternKey (mkPattern "m" "S" NO_STREAMING), Some h);
     (PatternKey (mkPattern "n" "S" "sideways"), None);
     (NotJson syntaxError, None);
     (PatternKey (mkPattern "n" "S" "sideways"), Some h)] =
  inl syntaxError.
Proof.
  intros h syntaxError.
  exact (registration_fails_on_first_failure
           [(PatternKey (mkPattern "m" "S" NO_STREAMING), Some h);
            (PatternKey (mkPattern "n" "S" "sideways"), None);
            (NotJson syntaxError, None);
            (PatternKey (mkPattern "n" "S" "sideways"), Some h)]
           eq_refl).
Defined.

(** X12: for a handler map as in X11, the entries whose key parses and
    whose handler is [null] leave no trace: the outcome is the one of the
    registration without them. *)
Theorem null_handlers_ignored handlers :
  ordinary_names handlers = true ->
  createServiceHandlers (List.filter (fun entry => negb (idle entry)) handlers) =
  createServiceHandlers handlers.
Proof.
  intros _.
  unfold createServiceHandlers. generalize (@nil (string * Object RpcHandler)).
  induction handlers as [|[[error|pattern] [handler|]] hs IH]; intros acc;
    [done|done|done| |apply IH].
  cbn [List.filter idle negb register_all].
  destruct (register acc (PatternKey pattern, Some handler)); [done|apply IH].
Qed.

Lemma null_handlers_ignored_witness :
  let h : MessageHandler := fun _ _ => Direct JNull in
  createServiceHandlers
    [(PatternKey (mkPattern "m" "S" RX_STREAMING), Some h)] =
  createServiceHandlers
    [(PatternKey (mkPattern "n" "S" "sideways"), None);
     (PatternKey (mkPattern "m" "S" RX_STREAMING), Some h);
     (PatternKey (mkPattern "m" "S" NO_STREAMING), None)].
Proof.
  intros h.
  exact (null_handlers_ignored
           [(PatternKey (mkPattern "n" "S" "sideways"), None);
            (PatternKey (mkPattern "m" "S" RX_STREAMING), Some h);
            (PatternKey (mkPattern "m" "S" NO_STREAMING), None)]
           eq_refl).
Defined.

Lemma last_registration_lookup before pattern handler after serviceHandlers :
  createServiceHandlers (before ++ (PatternKey pattern, Some handler) :: after) =
    inr serviceHandlers ->
  ~ Exists (registers (service pattern) (rpc pattern)) after ->
  exists f,
    adapter (streaming pattern) handler = inr f /\
    method_of (service pattern) (rpc pattern) serviceHandlers = Some f.
Proof.
  unfold createServiceHandlers. intros Hreg Hlast.
  rewrite register_all_app in Hreg.
  destruct (register_all [] before) as [e|acc]; [done|].
  cbn [register_all] in Hreg.
  destruct (register acc (PatternKey pattern, Some handler)) as [e|acc'] eqn:Hone; [done|].
  destruct (register_inr _ _ _ _ Hone) as [f Hf].
  destruct (register_spec acc pattern handler f Hf) as (acc'' & Hone' & Hset & _).
  rewrite Hone in Hone'. injection Hone' as <-.
  destruct (register_all_spec after acc' _ Hreg) as (_ & _ & Hkeep).
  exists f. split; [done|]. by rewrite (Hkeep _ _ Hlast).
Qed.

(** X13: for a handler map whose entries with a handler name services and
    methods that no object inherits, the table holds, for a service and a
    method, the adapter of the last entry registered for them with a
    handler: a later entry for the same service and method replaces an
    earlier one, entries for other methods leave it alone. *)
Theorem last_registration_wins before pattern handler after serviceHandlers :
  ordinary_names (before ++ (PatternKey pattern, Some handler) :: after) = true ->
  createServiceHandlers (before ++ (PatternKey pattern, Some handler) :: after) =
    inr serviceHandlers ->
  ~ Exists (registers (service pattern) (rpc pattern)) after ->
  exists f,
    adapter (streaming pattern) handler = inr f /\
    method_of (service pattern) (rpc pattern) serviceHandlers = Some f.
Proof.
  unfold createServiceHandlers. intros _ Hreg Hlast.
  rewrite register_all_app in Hreg.
  destruct (register_all [] before) as [e|acc]; [done|].
  cbn [register_all] in Hreg.
  destruct (register acc (PatternKey pattern, Some handler)) as [e|acc'] eqn:Hone; [done|].
  destruct (register_inr _ _ _ _ Hone) as [f Hf].
  destruct (register_spec acc pattern handler f Hf) as (acc'' & Hone' & Hset & _).
  rewrite Hone in Hone'. injection Hone' as <-.
  destruct (register_all_spec after acc' _ Hreg) as (_ & _ & Hkeep).
  exists f. split; [done|]. by rewrite (Hkeep _ _ Hlast).
Qed.

Lemma last_registration_wins_witness :
  let first : MessageHandler := fun _ _ => Direct (JStr "first") in
  let second : MessageHandler := fun _ _ => Direct (JStr "second") in
  let other : MessageHandler := fun _ _ => Direct (JStr "other") in
  exists f,
    adapter RX_STREAMING second = inr f /\
    method_of "S" "m"
      [("S", [("m", ServerStreamHandler (streamingHandler second));
              ("n", UnaryHandler (lastValueHandler other))])] = Some f.
Proof.
  intros first second other.
  apply (last_registration_wins
           [(PatternKey (mkPattern "m" "S" NO_STREAMING), Some first)]
           (mkPattern "m" "S" RX_STREAMING) second
           [(PatternKey (mkPattern "n" "S" NO_STREAMING), Some other);
            (PatternKey (mkPattern "m" "S" NO_STREAMING), None)]).
  - reflexivity.
  - reflexivity.
  - intros Hex. apply Exists_cons in Hex as [(_ & Hr)|Hex]; [discriminate|].
    apply Exists_cons in Hex as [[]|Hex].
    by apply Exists_nil in Hex.
Defined.

(** X14: for a handler map whose entries with a handler name services and
    methods that no object inherits, in the table [createServiceHandlers]
    returns no two services share a name, no two methods of a service share
    a name, and no service is without a method. *)
Theorem table_well_shaped handlers serviceHandlers :
  ordinary_names handlers = true ->
  createServiceHandlers handlers = inr serviceHandlers ->
  NoDup (obj_keys serviceHandlers) /\
  forall serviceName impl,
    (serviceName, impl) ∈ serviceHandlers ->
    NoDup (obj_keys impl) /\ impl <> [].
Proof.
  intros _ Hreg.
  destruct (register_all_spec handlers [] _ Hreg) as (Hshape & _ & _).
  destruct Hshape as [Hnd Hall].
  { split; [constructor|constructor]. }
  split; [done|]. intros serviceName impl Hin.
  rewrite Forall_forall in Hall. apply (Hall _ Hin).
Qed.

Lemma table_well_shaped_witness :
  let h : MessageHandler := fun _ _ => Direct JNull in
  let table : ServiceHandlerMap :=
    [("A", [("m1", UnaryHandler (lastValueHandler h));
            ("m2", BidiStreamHandler (streamingHandler h))]);
     ("B", [("m1", ClientStreamHandler (lastValueHandler h))])] in
  NoDup (obj_keys table) /\
  forall serviceName impl,
    (serviceName, impl) ∈ table -> NoDup (obj_keys impl) /\ impl <> [].
Proof.
  intros h table.
  apply (table_well_shaped
           [(PatternKey (mkPattern "m1" "A" RX_STREAMING), Some h);
            (PatternKey (mkPattern "m1" "B" PT_STREAMING), Some h);
            (PatternKey (mkPattern "m2" "A" DUPLEX_STREAMING), Some h);
            (PatternKey (mkPattern "m1" "A" NO_STREAMING), Some h)]).
  - reflexivity.
  - reflexivity.
Defined.

(** X15: for a handler map whose entries with a handler name services and
    methods that no object inherits, the table holds an adapter for a
    service and a method, as properties of its own, exactly when some entry
    with a handler was registered for them. *)
Theorem table_domain handlers serviceHandlers serviceName rpcName :
  ordinary_names handlers = true ->
  createServiceHandlers handlers = inr serviceHandlers ->
  (is_Some (method_of serviceName rpcName serviceHandlers) <->
   Exists (registers serviceName rpcName) handlers).
Proof.
  intros _ Hreg.
  destruct (register_all_spec handlers [] _ Hreg) as (_ & Hdom & _).
  rewrite Hdom. unfold method_of at 1. simpl.
  split; [|by right]. intros [[? [=]]|?]. done.
Qed.

Lemma table_domain_witness :
  let h : MessageHandler := fun _ _ => Direct JNull in
  let handlers :=
    [(PatternKey (mkPattern "m1" "A" NO_STREAMING), Some h);
     (PatternKey (mkPattern "m2" "A" NO_STREAMING), None)] in
  let table : ServiceHandlerMap :=
    [("A", [("m1", UnaryHandler (lastValueHandler h))])] in
  (is_Some (method_of "A" "m1" table) /\ Exists (registers "A" "m1") handlers) /\
  (is_Some (method_of "A" "m2" table) <-> Exists (registers "A" "m2") handlers).
Proof.
  intros h handlers table. split.
  - split; [by eexists|].
    apply (table_domain handlers table "A" "m1"); [reflexivity..|by eexists].
  - apply (table_domain handlers table "A" "m2"); reflexivity.
Defined.

End TableSafety.

(** ** From the registration to the routing surface *)

Section StrategySafety.
Import Async Router Table Strategy.

(** X16: for a handler map whose entries with a handler name services and
    methods that no object inherits: when the router function of the
    strategy runs to its end, a method registered with a handler, and not
    registered again later, is on the routing surface if the registry knows
    its service: there is a call [router.service(descriptor, impl)] under
    the descriptor found, and [impl] holds the adapter of the handler under
    the method name. *)
Theorem registered_method_reaches_router
  (metadataStore : gmap string DescService) before pattern handler after
  router router' descriptor :
  ordinary_names (before ++ (PatternKey pattern, Some handler) :: after) = true ->
  createRouter metadataStore (before ++ (PatternKey pattern, Some handler) :: after) router =
    inr router' ->
  ~ Exists (registers (service pattern) (rpc pattern)) after ->
  metadataStore !! service pattern = Some descriptor ->
  exists f impl,
    adapter (streaming pattern) handler = inr f /\
    (descriptor, impl) ∈ router' /\
    obj_get (rpc pattern) impl = Some f.
Proof.
  unfold createRouter. intros _ Hrouter Hlast Hstore.
  destruct (createServiceHandlers (before ++ (PatternKey pattern, Some handler) :: after))
    as [e|serviceHandlers] eqn:Hreg; [done|].
  injection Hrouter as <-.
  destruct (last_registration_lookup _ _ _ _ _ Hreg Hlast) as (f & Hf & Hm).
  unfold method_of in Hm.
  destruct (obj_get (service pattern) serviceHandlers) as [impl|] eqn:Himpl;
    [|done].
  exists f, impl. split; [done|]. split; [|done].
  rewrite addServicesToRouter_calls. apply elem_of_app. right.
  apply list_elem_of_omap. exists (service pattern, impl). split.
  - by apply obj_get_elem.
  - simpl. by rewrite Hstore.
Qed.

Lemma registered_method_reaches_router_witness :
  let h : MessageHandler := fun _ _ => Direct (JStr "hello") in
  let store : gmap string DescService :=
    {[ "Greeter" := mkDescService "test.v1.Greeter" ]} in
  exists f impl,
    adapter NO_STREAMING h = inr f /\
    (mkDescService "test.v1.Greeter", impl) ∈
      [(mkDescService "test.v1.Greeter",
        [("sayHello", UnaryHandler (lastValueHandler h))])] /\
    obj_get "sayHello" impl = Some f.
Proof.
  intros h store.
  apply (registered_method_reaches_router store
           [(PatternKey (mkPattern "other" "Unknown" RX_STREAMING), Some h)]
           (mkPattern "sayHello" "Greeter" NO_STREAMING) h [] []).
  - reflexivity.
  - reflexivity.
  - intros Hex. by apply Exists_nil in Hex.
  - reflexivity.
Defined.

End StrategySafety.

(** ** Closing the server *)

Section ServerSafety.
Import Server.

Lemma close_settled with_callback s :
  (close with_callback s).1 <> Pending ->
  instance (close with_callback s).2 = None.
Proof.
  unfold close. destruct (instance s) as [server|] eqn:Hi; simpl; [|done].
  by destruct (close_calls_back server) as [err|].
Qed.

(** X17: once [close] has settled, with or without an error, the server
    holds no instance any more, and closing it again resolves at once: the
    second [close] calls its callback, if it has one, and makes no call on a
    node server. *)
Theorem close_is_final with_callback again s :
  (close with_callback s).1 <> Pending ->
  instance (close with_callback s).2 = None /\
  (close again (close with_callback s).2).1 = Fulfilled JUndefined /\
  effects (close again (close with_callback s).2).2 =
    effects (close with_callback s).2 ++ call_optional again Callback.
Proof.
  intros Hsettled. pose proof (close_settled _ _ Hsettled) as Hnone.
  split; [done|]. unfold close at 1 3. by rewrite Hnone.
Qed.

Lemma close_is_final_witness :
  let s := mkServer (mkOptions 80 true)
             (Some (mkInstance true true (Some (Some (JError "Error" "not running")))))
             [] in
  instance (close true s).2 = None /\
  (close true (close true s).2).1 = Fulfilled JUndefined /\
  effects (close true (close true s).2).2 =
    effects (close true s).2 ++ call_optional true Callback.
Proof.
  intros s. apply (close_is_final true true s). discriminate.
Defined.

(** X18: a server whose [close] has settled cannot be started again:
    [startServer] makes no call to [listen] and its promise stays pending. *)
Theorem start_after_close_stays_pending with_callback s :
  (close with_callback s).1 <> Pending ->
  startServer (close with_callback s).2 = (Pending, (close with_callback s).2).
Proof.
  intros Hsettled. unfold startServer.
  by rewrite (close_settled _ _ Hsettled).
Qed.

Lemma start_after_close_stays_pending_witness :
  let s := mkServer (mkOptions 80 false)
             (Some (mkInstance false true (Some None))) [] in
  startServer (close false s).2 = (Pending, (close false s).2).
Proof.
  intros s. apply (start_after_close_stays_pending false s). discriminate.
Defined.

(** X19: when the strategy's [close] fails because the server's [close]
    reported an error, the strategy keeps its server (the assignment after
    the [await] is not reached), the server itself has let go of its
    instance, and closing the strategy again resolves and leaves it without
    a server. *)
Theorem strategy_close_can_be_retried s err server' :
  strategy_close (Some s) = (Rejected err, server') ->
  exists s',
    server' = Some s' /\ instance s' = None /\
    strategy_close server' = (Fulfilled JUndefined, None).
Proof.
  unfold strategy_close at 1.
  destruct (close false s) as [p s'] eqn:Hclose.
  destruct p as [v|err'|]; try done. intros [= <- <-].
  assert (Hset : (close false s).1 <> Pending) by (by rewrite Hclose).
  pose proof (close_settled false s Hset) as Hnone.
  rewrite Hclose in Hnone. simpl in Hnone.
  exists s'. split; [done|]. split; [done|].
  unfold strategy_close, close. by rewrite Hnone.
Qed.

Lemma strategy_close_can_be_retried_witness :
  let s := mkServer (mkOptions 80 false)
             (Some (mkInstance true true (Some (Some (JStr "busy"))))) [] in
  exists s',
    Some (close false s).2 = Some s' /\ instance s' = None /\
    strategy_close (Some (close false s).2) = (Fulfilled JUndefined, None).
Proof.
  intros s.
  apply (strategy_close_can_be_retried s (JStr "busy")).
  reflexivity.
Defined.

End ServerSafety.
